(** * War over a byte stream: the server session, the dealer, the comparator,
      the client agent and the client limiter of [war.py].

    The Python program is embedded shallowly.  Integers are [Z], [bytes]
    objects are lists of byte values, exceptions are an inductive type, and
    code that touches sockets or local variables that can go stale runs in a
    state-and-exception monad over an explicit state. *)

From stdpp Require Import prelude strings.
From Stdlib Require Import ZArith.

Local Open Scope Z_scope.

(** ** Exceptions and results *)

(** The exception classes the program can meet.  [socket.error] is an alias of
    [OSError]; [ConnectionResetError] is one of its subclasses. *)
Inductive exn :=
  | OSError
  | ConnectionResetError
  | IncompleteReadError
  | struct_error
  | UnboundLocalError
  | IndexError.

Global Instance exn_eq_dec : EqDecision exn.
Proof. solve_decision. Defined.

(** [isinstance e cls]: does an [except cls] clause catch [e]? *)
Definition isinstance (e cls : exn) : bool :=
  match cls, e with
  | OSError, (OSError | ConnectionResetError) => true
  | _, _ => bool_decide (e = cls)
  end.

Inductive res (A : Type) :=
  | Ok (a : A)
  | Raise (e : exn).
Global Arguments Ok {A} a.
Global Arguments Raise {A} e.

Global Instance res_ret : MRet res := λ A a, Ok a.
Global Instance res_bind : MBind res := λ A B f m,
  match m with
  | Ok a => f a
  | Raise e => Raise e
  end.

(** ** Wire values *)

Definition bytes := list Z.

Inductive Command := WANTGAME | GAMESTART | PLAYCARD | PLAYRESULT.

Definition Command_value (c : Command) : Z :=
  match c with
  | WANTGAME => 0
  | GAMESTART => 1
  | PLAYCARD => 2
  | PLAYRESULT => 3
  end.

Inductive Result := WIN | DRAW | LOSE.

Definition Result_value (r : Result) : Z :=
  match r with
  | WIN => 0
  | DRAW => 1
  | LOSE => 2
  end.

(** [struct.pack('<count>B', *vals)]: every value must fit an unsigned byte and
    the number of values must be the count of the format. *)
Definition is_byte (v : Z) : bool := (0 <=? v) && (v <=? 255).

Definition struct_pack_B (count : nat) (vals : list Z) : res bytes :=
  if bool_decide (length vals = count) && forallb is_byte vals
  then Ok vals
  else Raise struct_error.

(** [struct.unpack('<count>B', buf)]: the buffer must have exactly the size of
    the format. *)
Definition struct_unpack_B (count : nat) (buf : bytes) : res (list Z) :=
  if bool_decide (length buf = count) then Ok buf else Raise struct_error.

(** Indexing a sequence, [s[i]]. *)
Definition getitem (s : list Z) (i : nat) : res Z :=
  match s !! i with
  | Some v => Ok v
  | None => Raise IndexError
  end.

(** ** compare_cards *)

(** The three tests of the source in their order, and its trailing
    [return None]. *)
Definition compare_cards (card1 card2 : Z) : option Z :=
  let card1 := card1 `mod` 13 in
  let card2 := card2 `mod` 13 in
  if card1 <? card2 then Some (-1)
  else if card1 =? card2 then Some 0
  else if card1 >? card2 then Some 1
  else None.

(** ** deal_cards *)

(** [x[i], x[j] = x[j], x[i]] on a list. *)
Definition swap_items (x : list Z) (i j : nat) : res (list Z) :=
  xj ← getitem x j;
  xi ← getitem x i;
  Ok (<[j:=xi]> (<[i:=xj]> x)).

(** [random.shuffle]: for [i] from [len(x) - 1] down to [1], pick
    [j = randbelow(i + 1)] and swap the items at [i] and [j].  The generator
    is the function [rng], whose draw at step [i] is [rng i]; [randbelow rng i]
    is the call [randbelow(i + 1)], a number from [0] to [i]. *)
Definition randbelow (rng : nat → nat) (i : nat) : nat := (rng i `mod` S i)%nat.

Fixpoint shuffle_from (rng : nat → nat) (i : nat) (x : list Z) : res (list Z) :=
  match i with
  | O => Ok x
  | S i' =>
      x' ← swap_items x i (randbelow rng i);
      shuffle_from rng i' x'
  end.

Definition shuffle (rng : nat → nat) (x : list Z) : res (list Z) :=
  shuffle_from rng (length x - 1) x.

Definition deal_cards (rng : nat → nat) : res (bytes * bytes) :=
  card_deck ← shuffle rng (seqZ 0 52);
  let player_one_deck := take 26 card_deck in
  let player_two_deck := drop 26 card_deck in
  player_one_hand ← struct_pack_B 27 (Command_value GAMESTART :: player_one_deck);
  player_two_hand ← struct_pack_B 27 (Command_value GAMESTART :: player_two_deck);
  Ok (player_one_hand, player_two_hand).

(** ** State and exceptions *)

(** A computation over a state [S] that returns a value or raises; the state
    that an exception leaves behind is kept, as Python keeps the effects and
    assignments made before a [raise]. *)
Definition ST (S A : Type) : Type := S → res A * S.

Global Instance ST_ret {S} : MRet (ST S) := λ A a s, (Ok a, s).
Global Instance ST_bind {S} : MBind (ST S) := λ A B f m s,
  match m s with
  | (Ok a, s') => f a s'
  | (Raise e, s') => (Raise e, s')
  end.

Definition lift_res {S A} (r : res A) : ST S A := λ s, (r, s).

(** [try: body  except cls: handler] *)
Definition try_except {S A} (body : ST S A) (cls : exn) (handler : ST S A) : ST S A :=
  λ s,
    match body s with
    | (Raise e, s') => if isinstance e cls then handler s' else (Raise e, s')
    | r => r
    end.

(** ** Sockets, log and local variables of the server *)

Inductive Side := One | Two.

Global Instance Side_eq_dec : EqDecision Side.
Proof. solve_decision. Defined.

(** What the peer and the network do at a [recv]: hand over a chunk of bytes,
    or fail.  A script that has run out is a peer that has closed: [recv]
    returns the empty [bytes].  A [recv] that waits for ever on a connected
    peer that sends nothing has no script: the scripts are the runs in which
    every [recv] the program makes returns or fails. *)
Inductive RecvOutcome :=
  | RecvData (d : bytes)
  | RecvError.

(** [tx] scripts the [sendall] calls ([true]: delivered, [false]: fails); a
    script that has run out delivers. *)
Record Sock := mkSock {
  rx : list RecvOutcome;
  tx : list bool;
  closed : bool
}.

Inductive Level := ERROR | DEBUG | INFO.

Inductive LogArg :=
  | ArgInt (n : Z)
  | ArgStr (s : string).

Record LogRecord := mkLog {
  level : Level;
  msg : string;
  args : list LogArg
}.

Inductive Event :=
  | EvRecv (s : Side) (r : res bytes)
  | EvSendall (s : Side) (data : bytes) (r : res unit)
  | EvClose (s : Side)
  | EvLog (r : LogRecord).

(** The local variables of [handle_game_clients] that are read after a
    [try] block may have skipped their assignment; [None] is unbound. *)
Record Frame := mkFrame {
  player_one_data : option (list Z);
  player_two_data : option (list Z);
  player_one_play_card : option bytes;
  player_two_play_card : option bytes
}.

Record State := mkState {
  sock_one : Sock;
  sock_two : Sock;
  trace : list Event;
  frame : Frame
}.

Definition sock (s : Side) (st : State) : Sock :=
  match s with One => sock_one st | Two => sock_two st end.

Definition set_sock (s : Side) (k : Sock) (st : State) : State :=
  match s with
  | One => mkState k (sock_two st) (trace st) (frame st)
  | Two => mkState (sock_one st) k (trace st) (frame st)
  end.

Definition emit (e : Event) (st : State) : State :=
  mkState (sock_one st) (sock_two st) (trace st ++ [e]) (frame st).

Definition set_frame (f : Frame) (st : State) : State :=
  mkState (sock_one st) (sock_two st) (trace st) f.

(** [sock.recv(bufsize)]: at most [bufsize] bytes of the next chunk; what is
    left of the chunk stays for the next call.  Any operation on a closed
    socket object raises [OSError]. *)
Definition recv (s : Side) (bufsize : nat) : ST State bytes := λ st,
  let k := sock s st in
  let r :=
    if closed k then (Raise OSError, k)
    else match rx k with
         | [] => (Ok [], k)
         | RecvError :: rest => (Raise OSError, mkSock rest (tx k) (closed k))
         | RecvData d :: rest =>
             if bool_decide (length d ≤ bufsize)%nat
             then (Ok d, mkSock rest (tx k) (closed k))
             else (Ok (take bufsize d),
                   mkSock (RecvData (drop bufsize d) :: rest) (tx k) (closed k))
         end in
  (r.1, emit (EvRecv s r.1) (set_sock s r.2 st)).

(** [sock.sendall(data)] *)
Definition sendall (s : Side) (data : bytes) : ST State unit := λ st,
  let k := sock s st in
  let r :=
    if closed k then (Raise OSError, k)
    else match tx k with
         | [] => (Ok (), k)
         | true :: rest => (Ok (), mkSock (rx k) rest (closed k))
         | false :: rest => (Raise OSError, mkSock (rx k) rest (closed k))
         end in
  (r.1, emit (EvSendall s data r.1) (set_sock s r.2 st)).

(** [sock.close()]: never fails, also on a socket that is closed already. *)
Definition close (s : Side) : ST State unit := λ st,
  let k := sock s st in
  (Ok (), emit (EvClose s) (set_sock s (mkSock (rx k) (tx k) true) st)).

Definition logging (l : Level) (m : string) (a : list LogArg) : ST State unit := λ st,
  (Ok (), emit (EvLog (mkLog l m a)) st).

(** Reading a local variable; an unbound one raises. *)
Definition load (v : Frame → option (list Z)) : ST State (list Z) := λ st,
  match v (frame st) with
  | Some x => (Ok x, st)
  | None => (Raise UnboundLocalError, st)
  end.

Definition store (upd : Frame → Frame) : ST State unit := λ st,
  (Ok (), set_frame (upd (frame st)) st).

Definition set_player_one_data (x : list Z) (f : Frame) : Frame :=
  mkFrame (Some x) (player_two_data f) (player_one_play_card f) (player_two_play_card f).
Definition set_player_two_data (x : list Z) (f : Frame) : Frame :=
  mkFrame (player_one_data f) (Some x) (player_one_play_card f) (player_two_play_card f).
Definition set_player_one_play_card (x : bytes) (f : Frame) : Frame :=
  mkFrame (player_one_data f) (player_two_data f) (Some x) (player_two_play_card f).
Definition set_player_two_play_card (x : bytes) (f : Frame) : Frame :=
  mkFrame (player_one_data f) (player_two_data f) (player_one_play_card f) (Some x).

(** ** readexactly *)

(** The [while] loop of [readexactly] has no bound of its own: the model runs
    it on [fuel] iterations and answers [None] when the loop is still running
    after them. *)
Fixpoint readexactly_loop (fuel : nat) (s : Side) (numbytes : nat)
    (recieved_data : bytes) : ST State (option bytes) :=
  if bool_decide (length recieved_data < numbytes)%nat then
    match fuel with
    | O => mret None
    | S fuel' =>
        d ← recv s numbytes;
        readexactly_loop fuel' s numbytes (recieved_data ++ d)
    end
  else mret (Some recieved_data).

Definition readexactly (fuel : nat) (s : Side) (numbytes : nat) : ST State (option bytes) :=
  recieved_data ← recv s numbytes;
  readexactly_loop fuel s numbytes recieved_data.

(** ** kill_game and handle_game_clients *)

Definition kill_game (game : Side * Side) : ST State unit :=
  close game.1;;
  close game.2;;
  mret ().

(** Which [return] statement ended [handle_game_clients]. *)
Inductive Exit :=
  | ReturnWantGame
  | ReturnTagOne
  | ReturnTagTwo
  | ReturnEnd.

Inductive ctrl :=
  | Next
  | Return (e : Exit).

(** [for i in range(...)] with a body that may [return]. *)
Fixpoint for_range {S} (range : list Z) (body : Z → ST S ctrl) : ST S ctrl :=
  match range with
  | [] => mret Next
  | i :: rest =>
      c ← body i;
      match c with
      | Next => for_range rest body
      | Return e => mret (Return e)
      end
  end.

Definition byte_buffer : nat := 2.

(** The pair of [PLAYRESULT] messages packed from the comparison. *)
Definition pack_results (compared_cards_result : option Z) : res (bytes * bytes) :=
  if bool_decide (compared_cards_result = Some (-1)) then
    player_one_result ← struct_pack_B 2 [Command_value PLAYRESULT; Result_value LOSE];
    player_two_result ← struct_pack_B 2 [Command_value PLAYRESULT; Result_value WIN];
    Ok (player_one_result, player_two_result)
  else if bool_decide (compared_cards_result = Some 1) then
    player_one_result ← struct_pack_B 2 [Command_value PLAYRESULT; Result_value WIN];
    player_two_result ← struct_pack_B 2 [Command_value PLAYRESULT; Result_value LOSE];
    Ok (player_one_result, player_two_result)
  else
    player_one_result ← struct_pack_B 2 [Command_value PLAYRESULT; Result_value DRAW];
    player_two_result ← struct_pack_B 2 [Command_value PLAYRESULT; Result_value DRAW];
    Ok (player_one_result, player_two_result).

(** One iteration of the round loop. *)
Definition round (i : Z) : ST State ctrl :=
  try_except
    (d ← recv One byte_buffer; store (set_player_one_play_card d);;
     d ← recv Two byte_buffer; store (set_player_two_play_card d))
    OSError
    (logging ERROR "Error happened when receiving response from players during round!" [];;
     kill_game (One, Two));;
  try_except
    (b ← load player_one_play_card;
     t ← lift_res (struct_unpack_B 2 b); store (set_player_one_data t);;
     b ← load player_two_play_card;
     t ← lift_res (struct_unpack_B 2 b); store (set_player_two_data t))
    struct_error
    (* logging.exception logs at level ERROR *)
    (logging ERROR "Struct Exception Occured during game" [];;
     kill_game (One, Two));;
  d ← load player_one_data; player_one_card ← lift_res (getitem d 1);
  d ← load player_two_data; player_two_card ← lift_res (getitem d 1);
  d ← load player_one_data; tag ← lift_res (getitem d 0);
  if bool_decide (tag ≠ Command_value PLAYCARD) then
    kill_game (One, Two);; mret (Return ReturnTagOne)
  else
  d ← load player_two_data; tag ← lift_res (getitem d 0);
  if bool_decide (tag ≠ Command_value PLAYCARD) then
    kill_game (One, Two);; mret (Return ReturnTagTwo)
  else
  let compared_cards_result := compare_cards player_one_card player_two_card in
  results ← lift_res (pack_results compared_cards_result);
  try_except
    (sendall One results.1;;
     sendall Two results.2)
    OSError
    (logging ERROR "Could not send round results to players!" [];;
     kill_game (One, Two));;
  logging DEBUG "End of Round: %d" [ArgInt i];;
  mret Next.

Definition handle_game_clients (rng : nat → nat) : ST State Exit :=
  d ← recv One byte_buffer; store (set_player_one_data d);;
  d ← recv Two byte_buffer; store (set_player_two_data d);;
  d1 ← load player_one_data;
  d2 ← load player_two_data;
  if bool_decide (d1 ≠ [0; 0]) || bool_decide (d2 ≠ [0; 0]) then
    kill_game (One, Two);; mret ReturnWantGame
  else
  hands ← lift_res (deal_cards rng);
  try_except
    (sendall One hands.1;;
     sendall Two hands.2)
    OSError
    (logging ERROR "Sending cards to players resulted in an error" [];;
     kill_game (One, Two));;
  logging DEBUG "Successfully sent cards to both players" [];;
  c ← for_range (seqZ 1 26) round;
  match c with
  | Next => mret ReturnEnd
  | Return e => mret e
  end.

(** The state in which [serve_game] starts a session: two accepted, open
    connections, nothing done yet, no local variable bound. *)
Definition accepted (rx1 : list RecvOutcome) (tx1 : list bool)
    (rx2 : list RecvOutcome) (tx2 : list bool) : State :=
  mkState (mkSock rx1 tx1 false) (mkSock rx2 tx2 false) []
          (mkFrame None None None None).

(** Observations on a trace. *)
Definition is_close (s : Side) (e : Event) : bool :=
  match e with
  | EvClose s' => bool_decide (s' = s)
  | _ => false
  end.

Definition close_calls (s : Side) (t : list Event) : nat :=
  length (filter (λ e, is_close s e) t).

Definition delivered (s : Side) (t : list Event) : list bytes :=
  omap (λ e, match e with
             | EvSendall s' data (Ok _) => if bool_decide (s' = s) then Some data else None
             | _ => None
             end) t.

Definition sendall_calls (s : Side) (t : list Event) : list bytes :=
  omap (λ e, match e with
             | EvSendall s' data _ => if bool_decide (s' = s) then Some data else None
             | _ => None
             end) t.

Definition is_error_log (e : Event) : bool :=
  match e with
  | EvLog r => match level r with ERROR => true | _ => false end
  | _ => false
  end.

Definition errors_logged (t : list Event) : nat :=
  length (filter (λ e, is_error_log e) t).

Definition rounds_ended (t : list Event) : list LogArg :=
  mjoin (omap (λ e, match e with
             | EvLog (mkLog DEBUG "End of Round: %d" a) => Some a
             | _ => None
             end) t).

(** ** The client agent *)

(** The asyncio stream of one client: whether [open_connection] succeeds, the
    bytes the server will deliver, and the exception a read meets once they
    are used up ([IncompleteReadError] at end of stream,
    [ConnectionResetError] on a reset). *)
Inductive ClientEvent :=
  | CEvConnect (r : res unit)
  | CEvWrite (data : bytes)
  | CEvRead (n : nat) (r : res bytes)
  | CEvLog (r : LogRecord)
  | CEvClose.

Record ClientState := mkClient {
  connect_result : res unit;
  incoming : bytes;
  at_end : exn;
  myscore : Z;
  ctrace : list ClientEvent
}.

Definition cemit (e : ClientEvent) (st : ClientState) : ClientState :=
  mkClient (connect_result st) (incoming st) (at_end st) (myscore st) (ctrace st ++ [e]).

Definition open_connection : ST ClientState unit := λ st,
  (connect_result st, cemit (CEvConnect (connect_result st)) st).

(** [writer.write(data)] only buffers; it does not fail. *)
Definition writer_write (data : bytes) : ST ClientState unit := λ st,
  (Ok (), cemit (CEvWrite data) st).

Definition writer_close : ST ClientState unit := λ st,
  (Ok (), cemit CEvClose st).

(** [await reader.readexactly(n)]: exactly [n] bytes, or the exception of the
    end of the stream. *)
Definition reader_readexactly (n : nat) : ST ClientState bytes := λ st,
  let r := if bool_decide (n ≤ length (incoming st))%nat
           then (Ok (take n (incoming st)), drop n (incoming st))
           else (Raise (at_end st), []) in
  (r.1, cemit (CEvRead n r.1)
          (mkClient (connect_result st) r.2 (at_end st) (myscore st) (ctrace st))).

Definition clogging (l : Level) (m : string) (a : list LogArg) : ST ClientState unit := λ st,
  (Ok (), cemit (CEvLog (mkLog l m a)) st).

Definition get_myscore : ST ClientState Z := λ st, (Ok (myscore st), st).
Definition set_myscore (v : Z) : ST ClientState unit := λ st,
  (Ok (), mkClient (connect_result st) (incoming st) (at_end st) v (ctrace st)).

(** [for card in cards: body] *)
Fixpoint for_each {S} (cards : list Z) (body : Z → ST S unit) : ST S unit :=
  match cards with
  | [] => mret ()
  | card :: rest => body card;; for_each rest body
  end.

Definition client_round (card : Z) : ST ClientState unit :=
  writer_write [Command_value PLAYCARD; card];;
  result ← reader_readexactly 2;
  r ← lift_res (getitem result 1);
  if bool_decide (r = Result_value WIN) then
    s ← get_myscore; set_myscore (s + 1)
  else if bool_decide (r = Result_value LOSE) then
    s ← get_myscore; set_myscore (s - 1)
  else mret ().

Definition classify (myscore : Z) : string :=
  if bool_decide (myscore > 0) then "won"
  else if bool_decide (myscore < 0) then "lost"
  else "drew".

Definition client_body : ST ClientState Z :=
  open_connection;;
  writer_write [0; 0];;
  card_msg ← reader_readexactly 27;
  set_myscore 0;;
  for_each (drop 1 card_msg) client_round;;
  s ← get_myscore;
  let result := classify s in
  clogging DEBUG "Game complete, I %s" [ArgStr result];;
  writer_close;;
  mret 1.

(** [try: body] followed by several [except] clauses: the first clause whose
    class catches the exception runs. *)
Fixpoint find_handler {S A} (e : exn) (clauses : list (exn * ST S A)) : option (ST S A) :=
  match clauses with
  | [] => None
  | (cls, handler) :: rest =>
      if isinstance e cls then Some handler else find_handler e rest
  end.

Definition try_excepts {S A} (body : ST S A) (clauses : list (exn * ST S A)) : ST S A :=
  λ s,
    match body s with
    | (Raise e, s') =>
        match find_handler e clauses with
        | Some handler => handler s'
        | None => (Raise e, s')
        end
    | r => r
    end.

Definition client : ST ClientState Z :=
  try_excepts client_body
    [ (ConnectionResetError, clogging ERROR "ConnectionResetError" [];; mret 0);
      (IncompleteReadError, clogging ERROR "asyncio.streams.IncompleteReadError" [];; mret 0);
      (OSError, clogging ERROR "OSError" [];; mret 0) ].

Definition connecting (c : res unit) (data : bytes) (e : exn) : ClientState :=
  mkClient c data e 0 [].

(** The score the result bytes of the rounds add up to. *)
Definition round_score (result_byte : Z) : Z :=
  if bool_decide (result_byte = Result_value WIN) then 1
  else if bool_decide (result_byte = Result_value LOSE) then -1
  else 0.

(** ** The client limiter *)

(** One [limit_client] coroutine: before its [async with sem], inside it
    (the client agent runs), or returned with the agent's result. *)
Inductive Agent :=
  | Waiting
  | InFlight
  | Finished (r : Z).

(** The semaphore's counter and the coroutines that [main] created. *)
Record Limiter := mkLimiter {
  sem_value : nat;
  agents : list Agent
}.

(** [sem = asyncio.Semaphore(L)] and [num_clients] coroutines. *)
Definition start_clients (L num_clients : nat) : Limiter :=
  mkLimiter L (replicate num_clients Waiting).

(** The event loop resumes coroutine [i]; which one it resumes, and when an
    agent inside ends, is not fixed by the program.  A waiting coroutine enters
    [async with sem] when the counter is positive and takes one unit; one that
    is inside ends with its agent's result [r] and gives the unit back.  A
    coroutine that waits on a zero counter, or has returned, cannot be
    resumed. *)
Definition resume (i : nat) (r : Z) (s : Limiter) : option Limiter :=
  match agents s !! i with
  | Some Waiting =>
      match sem_value s with
      | O => None
      | S v => Some (mkLimiter v (<[i:=InFlight]> (agents s)))
      end
  | Some InFlight => Some (mkLimiter (S (sem_value s)) (<[i:=Finished r]> (agents s)))
  | Some (Finished _) => None
  | None => None
  end.

(** [main] in [clients] mode: the semaphore holds 1000. *)
Definition main_clients (num_clients : nat) : Limiter := start_clients 1000 num_clients.

(** The states the loop reaches from [start_clients L n] in [k] resumptions. *)
Inductive runs (L n : nat) : nat → Limiter → Prop :=
  | runs_start : runs L n 0 (start_clients L n)
  | runs_resume k s i r s' :
      runs L n k s → resume i r s = Some s' → runs L n (S k) s'.

Definition is_in_flight (a : Agent) : bool :=
  match a with InFlight => true | _ => false end.
Definition is_finished (a : Agent) : bool :=
  match a with Finished _ => true | _ => false end.
Definition is_waiting (a : Agent) : bool :=
  match a with Waiting => true | _ => false end.

Definition count (f : Agent → bool) (s : Limiter) : nat :=
  length (filter (λ a, f a) (agents s)).

Definition in_flight (s : Limiter) : nat := count is_in_flight s.

(** How often the session closes, against the failures it handled.  Every
    [except] clause of [handle_game_clients] logs an error and calls
    [kill_game]; the two [return]s after a tag check and the one after the
    [WANTGAME] check call [kill_game] without logging. *)
Definition exit_closes (e : Exit) : nat :=
  match e with
  | ReturnEnd => 0
  | _ => 1
  end.

Definition ctrl_closes (c : ctrl) : nat :=
  match c with
  | Next => 0
  | Return e => exit_closes e
  end.

Definition in_step (t : list Event) (extra : nat) : Prop :=
  close_calls One t = (errors_logged t + extra)%nat ∧
  close_calls Two t = (errors_logged t + extra)%nat.

(** [tracks m d]: a run of [m] only adds to the trace; what it adds has one
    [close] of each connection per error logged, and [d a] more when it
    returns [a]; a connection is closed after the run if it was before or the
    run closed it. *)
Definition tracks {A} (m : ST State A) (d : A → nat) : Prop :=
  ∀ st, ∃ t,
    trace (m st).2 = trace st ++ t ∧
    in_step t (match (m st).1 with Ok a => d a | Raise _ => 0%nat end) ∧
    ∀ s, closed (sock s (m st).2)
         = closed (sock s st) || bool_decide (0 < close_calls s t)%nat.

(** ** Concrete sessions *)

(** A generator whose draws are all zero, and the hands it deals. *)
Definition zero_rng : nat → nat := λ _, 0%nat.

Definition plays (cards : list Z) : list RecvOutcome :=
  (λ c, RecvData [Command_value PLAYCARD; c]) <$> cards.

(** Two peers that ask for a game and play the 26 cards they were dealt under
    [zero_rng]. *)
Definition peer_one : list RecvOutcome := RecvData [0; 0] :: plays (seqZ 1 26).
Definition peer_two : list RecvOutcome := RecvData [0; 0] :: plays (seqZ 27 25 ++ [0]).

(** The property that a session closes each connection exactly once. *)
Definition closes_each_exactly_once (rng : nat → nat)
    (rx1 : list RecvOutcome) (tx1 : list bool)
    (rx2 : list RecvOutcome) (tx2 : list bool) : Prop :=
  let t := trace (handle_game_clients rng (accepted rx1 tx1 rx2 tx2)).2 in
  close_calls One t = 1%nat ∧ close_calls Two t = 1%nat.

(** What the session does after the first [sendall] that fails. *)
Fixpoint after_failed_send (t : list Event) : list Event :=
  match t with
  | [] => []
  | EvSendall _ _ (Raise _) :: rest => rest
  | _ :: rest => after_failed_send rest
  end.

(** ** What a finished client run looks like *)

(** The stream of a whole game as the client reads it: the [GAMESTART]
    message, then one two-byte message per round. *)
Definition game_stream (tag : Z) (hand : list Z) (results : list (Z * Z)) : bytes :=
  (tag :: hand) ++ concat ((λ r, [r.1; r.2]) <$> results).

Definition total_score (results : list (Z * Z)) : Z :=
  foldr (λ r acc, round_score r.2 + acc) 0 results.

(** The bytes of the rounds taken two by two. *)
Fixpoint pairs (l : list Z) : list (Z * Z) :=
  match l with
  | a :: b :: rest => (a, b) :: pairs rest
  | _ => []
  end.

(** One write and one read per round, in the order of the hand. *)
Definition rounds_trace (hand : list Z) (results : list (Z * Z)) : list ClientEvent :=
  concat (zip_with (λ card r, [CEvWrite [Command_value PLAYCARD; card];
                               CEvRead 2 (Ok [r.1; r.2])]) hand results).


(** The results a server sends to a client over 26 rounds, here win, draw
    and lose in turn. *)
Definition some_results : list (Z * Z) :=
  (λ i, (Command_value PLAYRESULT, i `mod` 3)) <$> seqZ 0 26.

(** Unfolding the monad and the primitives of the session. *)
Ltac st_unfold :=
  unfold mbind, ST_bind, mret, ST_ret, lift_res, load, store, logging, kill_game, close,
    try_except, set_frame, emit, set_sock in *.


(** ** What a stream holds *)

(** The bytes a receive script delivers, in order, when no [recv] fails. *)
Fixpoint stream_bytes (rx : list RecvOutcome) : bytes :=
  match rx with
  | [] => []
  | RecvData d :: rest => d ++ stream_bytes rest
  | RecvError :: rest => stream_bytes rest
  end.

Definition is_data (o : RecvOutcome) : bool :=
  match o with
  | RecvData _ => true
  | RecvError => false
  end.

(** ** Invariants and counts on sessions *)

(** [keeps I m]: a run of [m] from a state in [I] ends in [I], whether it
    returns or raises. *)
Definition keeps {A} (I : State → Prop) (m : ST State A) : Prop :=
  ∀ st, I st → I (m st).2.

(** A [recv] that returned or a [sendall] that delivered, on connection [s]. *)
Definition is_success_on (s : Side) (e : Event) : bool :=
  match e with
  | EvRecv s' (Ok _) => bool_decide (s' = s)
  | EvSendall s' _ (Ok _) => bool_decide (s' = s)
  | _ => false
  end.

(** Reading a trace from its start: [Some c] while no [recv] or [sendall] on
    [s] has succeeded after a [close] of [s], with [c] telling whether [s] has
    been closed; [None] once one has. *)
Definition io_step (s : Side) (c : option bool) (e : Event) : option bool :=
  match c with
  | None => None
  | Some was_closed =>
      if is_close s e then Some true
      else if is_success_on s e && was_closed then None
      else Some was_closed
  end.

Definition io_scan (s : Side) (t : list Event) : option bool :=
  fold_left (io_step s) t (Some false).

Definition io_in_order (s : Side) (st : State) : Prop :=
  io_scan s (trace st) = Some (closed (sock s st)).

(** The number of events of a kind that a run adds to the trace. *)
Definition counts (p : Event → bool) (t : list Event) : nat :=
  length (filter (λ e, p e) t).

Definition adds_at_most {A} (p : Event → bool) (m : ST State A) (k : nat) : Prop :=
  ∀ st, ∃ t, trace (m st).2 = trace st ++ t ∧ (counts p t ≤ k)%nat.

Definition is_sendall_on (s : Side) (e : Event) : bool :=
  match e with
  | EvSendall s' _ _ => bool_decide (s' = s)
  | _ => false
  end.

Definition is_recv_on (s : Side) (e : Event) : bool :=
  match e with
  | EvRecv s' _ => bool_decide (s' = s)
  | _ => false
  end.

Definition is_round_end (e : Event) : bool :=
  match e with
  | EvLog (mkLog DEBUG "End of Round: %d" _) => true
  | _ => false
  end.

(** ** A game in which nothing fails *)

(** The results of a round for the two sides, read off the ranks. *)
Definition round_results (c1 c2 : Z) : Result * Result :=
  if c1 `mod` 13 <? c2 `mod` 13 then (LOSE, WIN)
  else if c2 `mod` 13 <? c1 `mod` 13 then (WIN, LOSE)
  else (DRAW, DRAW).

Definition result_msg (r : Result) : bytes := [Command_value PLAYRESULT; Result_value r].

(** What a round adds to the trace when nothing fails. *)
Definition round_events (i : Z) (c : Z * Z) : list Event :=
  [ EvRecv One (Ok [Command_value PLAYCARD; c.1]);
    EvRecv Two (Ok [Command_value PLAYCARD; c.2]);
    EvSendall One (result_msg (round_results c.1 c.2).1) (Ok ());
    EvSendall Two (result_msg (round_results c.1 c.2).2) (Ok ());
    EvLog (mkLog DEBUG "End of Round: %d" [ArgInt i]) ].

Definition rounds_events (range : list Z) (cards : list (Z * Z)) : list Event :=
  concat (zip_with round_events range cards).

(** The messages a client wrote, in order. *)
Definition client_writes (t : list ClientEvent) : list bytes :=
  omap (λ e, match e with CEvWrite data => Some data | _ => None end) t.

Definition side_result (s : Side) (c : Z * Z) : Result :=
  match s with
  | One => (round_results c.1 c.2).1
  | Two => (round_results c.1 c.2).2
  end.

(** The two bytes of a side's [PLAYRESULT] message. *)
Definition result_pair (s : Side) (c : Z * Z) : Z * Z :=
  (Command_value PLAYRESULT, Result_value (side_result s c)).

(** ** Outcomes of the client *)

(** Connecting, writing and reading, as against logging and closing. *)
Definition is_client_io (e : ClientEvent) : bool :=
  match e with
  | CEvConnect _ | CEvWrite _ | CEvRead _ _ => true
  | CEvLog _ | CEvClose => false
  end.

(** The exceptions the [except] clauses of [client] catch. *)
Definition is_network_error (e : exn) : bool :=
  isinstance e OSError || bool_decide (e = IncompleteReadError).

(** ** The listener *)

(** What [accept] does: hand over a connection, or fail.  A script that has
    run out is the interrupt that ends the server. *)
Inductive AcceptOutcome :=
  | Accepted (conn : nat)
  | AcceptFails (e : exn).

Inductive ServerEvent :=
  | SLog (r : LogRecord)
  | SThreadStart (player_one player_two : nat).

(** How [serve_game] ends; it has no way to return. *)
Inductive Served :=
  | KeyboardInterrupt
  | SystemExit
  | Escaped (e : exn).

Record Listening := mkListening {
  socket_result : res unit;
  bind_result : res unit;
  listen_result : res unit;
  accepts : list AcceptOutcome
}.

(** The [while True] loop: two [accept]s, then a thread that runs
    [handle_game_clients] on the two connections. *)
Fixpoint serve_loop (accepts : list AcceptOutcome) : list ServerEvent * Served :=
  match accepts with
  | [] => ([], KeyboardInterrupt)
  | AcceptFails e :: _ => ([], Escaped e)
  | Accepted player_one_socket :: rest =>
      let log1 := SLog (mkLog DEBUG "Player 1 connected." []) in
      match rest with
      | [] => ([log1], KeyboardInterrupt)
      | AcceptFails e :: _ => ([log1], Escaped e)
      | Accepted player_two_socket :: rest' =>
          let r := serve_loop rest' in
          (log1
           :: SLog (mkLog DEBUG "Player 2 connected." [])
           :: SLog (mkLog DEBUG "handle_game_clients function was called in a new thread." [])
           :: SThreadStart player_one_socket player_two_socket
           :: r.1, r.2)
      end
  end.

Definition serve_game (env : Listening) : list ServerEvent * Served :=
  match socket_result env with
  | Raise e =>
      if isinstance e OSError
      then ([SLog (mkLog ERROR "Socket creation failed." [])], SystemExit)
      else ([], Escaped e)
  | Ok _ =>
      let log1 := SLog (mkLog DEBUG "Game Server initializing" []) in
      match bind_result env with
      | Raise e => ([log1], Escaped e)
      | Ok _ =>
          let log2 := SLog (mkLog DEBUG "Successfully binded socket" []) in
          match listen_result env with
          | Raise e => ([log1; log2], Escaped e)
          | Ok _ =>
              let log3 := SLog (mkLog DEBUG "Listening to socket for connections..." []) in
              let r := serve_loop (accepts env) in
              (log1 :: log2 :: log3 :: r.1, r.2)
          end
      end
  end.

(** The connections given to sessions, in the order the threads start. *)
Definition served_connections (t : list ServerEvent) : list nat :=
  mjoin (omap (λ e, match e with
                    | SThreadStart p1 p2 => Some [p1; p2]
                    | SLog _ => None
                    end) t).

Definition sessions_started (t : list ServerEvent) : nat :=
  length (omap (λ e, match e with
                     | SThreadStart p1 p2 => Some (p1, p2)
                     | SLog _ => None
                     end) t).

(** ** A message that is not WANTGAME *)


(** * Properties *)

(** ** The comparator *)

Lemma compare_cards_cases (a b : Z) :
  (a `mod` 13 < b `mod` 13 ∧ compare_cards a b = Some (-1)) ∨
  (a `mod` 13 = b `mod` 13 ∧ compare_cards a b = Some 0) ∨
  (a `mod` 13 > b `mod` 13 ∧ compare_cards a b = Some 1).
Proof.
  unfold compare_cards.
  destruct (Z.ltb_spec (a `mod` 13) (b `mod` 13)) as [Hlt|Hge]; [by left|].
  destruct (Z.eqb_spec (a `mod` 13) (b `mod` 13)) as [Heq|Hne]; [by right; left|].
  right; right. split; [lia|].
  destruct (Z.gtb_spec (a `mod` 13) (b `mod` 13)); [done|lia].
Qed.

Example compare_cards_1_14 : compare_cards 1 14 = Some 0.
Proof. reflexivity. Qed.

Example compare_cards_1_0 : compare_cards 1 0 = Some 1.
Proof. reflexivity. Qed.

(** C5: for all integers [a] and [b], [compare_cards a b] is [-1] exactly when
    [compare_cards b a] is [1], it is [0] exactly when [compare_cards b a] is
    [0], [compare_cards a a] is [0], and [compare_cards a b] is [0] exactly
    when [a mod 13 = b mod 13]. *)
Theorem compare_cards_inverse_and_rank (a b : Z) :
  (compare_cards a b = Some (-1) ↔ compare_cards b a = Some 1) ∧
  (compare_cards a b = Some 0 ↔ compare_cards b a = Some 0) ∧
  compare_cards a a = Some 0 ∧
  (compare_cards a b = Some 0 ↔ a `mod` 13 = b `mod` 13).
Proof.
  destruct (compare_cards_cases a b) as [[? Hab]|[[? Hab]|[? Hab]]];
    destruct (compare_cards_cases b a) as [[? Hba]|[[? Hba]|[? Hba]]];
    destruct (compare_cards_cases a a) as [[? Haa]|[[? Haa]|[? Haa]]];
    try lia; rewrite Hab, Hba, Haa;
    repeat split; intros; try done; try lia.
Qed.

(** C10: for all integers [a] and [b], [compare_cards a b] returns [-1], [0]
    or [1]; the trailing [return None] is never reached. *)
Theorem compare_cards_never_None (a b : Z) :
  compare_cards a b ≠ None ∧
  (compare_cards a b = Some (-1) ∨ compare_cards a b = Some 0 ∨ compare_cards a b = Some 1).
Proof.
  destruct (compare_cards_cases a b) as [[? ->]|[[? ->]|[? ->]]]; split; auto.
Qed.

(** ** The dealer *)

Lemma swap_items_Permutation (x : list Z) (i j : nat) :
  (i < length x)%nat → (j < length x)%nat →
  ∃ x', swap_items x i j = Ok x' ∧ x' ≡ₚ x.
Proof.
  intros Hi Hj.
  destruct (lookup_lt_is_Some_2 x i Hi) as [xi Hxi].
  destruct (lookup_lt_is_Some_2 x j Hj) as [xj Hxj].
  exists (<[j:=xi]> (<[i:=xj]> x)). split.
  - unfold swap_items, getitem. rewrite Hxj, Hxi. reflexivity.
  - by apply Permutation_insert_swap.
Qed.

Lemma randbelow_lt (rng : nat → nat) (i : nat) : (randbelow rng i < S i)%nat.
Proof. unfold randbelow. apply Nat.mod_upper_bound. lia. Qed.

Lemma shuffle_from_Permutation (rng : nat → nat) (i : nat) :
  ∀ x : list Z, (i < length x)%nat →
  ∃ x', shuffle_from rng i x = Ok x' ∧ x' ≡ₚ x.
Proof.
  induction i as [|i IH]; intros x Hi.
  - exists x. by split.
  - pose proof (randbelow_lt rng (S i)) as Hj.
    destruct (swap_items_Permutation x (S i) (randbelow rng (S i))) as (x1 & Hswap & Hperm1);
      [lia..|].
    destruct (IH x1) as (x2 & Hrec & Hperm2).
    { rewrite Hperm1. lia. }
    exists x2. split; [|by rewrite Hperm2].
    simpl. rewrite Hswap. exact Hrec.
Qed.

Lemma shuffle_Permutation (rng : nat → nat) (x : list Z) :
  ∃ x', shuffle rng x = Ok x' ∧ x' ≡ₚ x.
Proof.
  unfold shuffle. destruct x as [|a x].
  - exists []. by split.
  - apply shuffle_from_Permutation. simpl. lia.
Qed.

Lemma struct_pack_B_Ok (count : nat) (vals : list Z) :
  length vals = count → Forall (λ v, 0 ≤ v ≤ 255) vals →
  struct_pack_B count vals = Ok vals.
Proof.
  intros Hlen Hall. unfold struct_pack_B.
  rewrite bool_decide_eq_true_2 by done.
  replace (forallb is_byte vals) with true; [done|].
  symmetry. apply forallb_forall. intros v Hv%list_elem_of_In.
  rewrite Forall_forall in Hall. specialize (Hall v Hv).
  unfold is_byte. apply andb_true_iff. split; lia.
Qed.

(** C6: for every random source, [deal_cards] returns two messages of 27
    bytes, each the [GAMESTART] tag followed by a hand of 26 cards; player
    one's hand is the first 26 cards of the shuffled deck and player two's the
    last 26; the hands are disjoint and together hold exactly the cards
    [0..51]. *)
Theorem deal_cards_hands (rng : nat → nat) :
  ∃ card_deck hand1 hand2,
    shuffle rng (seqZ 0 52) = Ok card_deck ∧
    hand1 = take 26 card_deck ∧ hand2 = drop 26 card_deck ∧
    deal_cards rng = Ok (Command_value GAMESTART :: hand1, Command_value GAMESTART :: hand2) ∧
    Command_value GAMESTART = 1 ∧
    length hand1 = 26%nat ∧ length hand2 = 26%nat ∧
    length (Command_value GAMESTART :: hand1) = 27%nat ∧
    length (Command_value GAMESTART :: hand2) = 27%nat ∧
    NoDup hand1 ∧ NoDup hand2 ∧
    (∀ c, c ∈ hand1 → c ∉ hand2) ∧
    (∀ c, c ∈ hand1 ∨ c ∈ hand2 ↔ 0 ≤ c ≤ 51).
Proof.
  destruct (shuffle_Permutation rng (seqZ 0 52)) as (deck & Hsh & Hperm).
  exists deck, (take 26 deck), (drop 26 deck).
  assert (Hlen : length deck = 52%nat) by (by rewrite Hperm).
  assert (Hnd : NoDup (take 26 deck ++ drop 26 deck)).
  { rewrite take_drop, Hperm. apply NoDup_seqZ. }
  assert (Hin : ∀ c, c ∈ deck ↔ 0 ≤ c ≤ 51).
  { intros c. rewrite Hperm, elem_of_seqZ. lia. }
  apply NoDup_app in Hnd as (Hnd1 & Hdisj & Hnd2).
  assert (Hl1 : length (take 26 deck) = 26%nat) by (rewrite length_take; lia).
  assert (Hl2 : length (drop 26 deck) = 26%nat) by (rewrite length_drop; lia).
  assert (Hb : ∀ h, h ⊆ deck → Forall (λ v, 0 ≤ v ≤ 255) (Command_value GAMESTART :: h)).
  { intros h Hsub. constructor; [simpl; lia|].
    apply Forall_forall. intros c Hc. apply Hsub, Hin in Hc. lia. }
  assert (Hsub1 : take 26 deck ⊆ deck).
  { intros c Hc. rewrite <- (take_drop 26 deck). apply elem_of_app. by left. }
  assert (Hsub2 : drop 26 deck ⊆ deck).
  { intros c Hc. rewrite <- (take_drop 26 deck). apply elem_of_app. by right. }
  assert (Hdeal : deal_cards rng =
    Ok (Command_value GAMESTART :: take 26 deck, Command_value GAMESTART :: drop 26 deck)).
  { unfold deal_cards. rewrite Hsh. simpl.
    rewrite (struct_pack_B_Ok 27 (1 :: take 26 deck)); [|simpl; lia|by apply (Hb _ Hsub1)].
    simpl.
    rewrite (struct_pack_B_Ok 27 (1 :: drop 26 deck)); [|simpl; lia|by apply (Hb _ Hsub2)].
    reflexivity. }
  assert (Hcover : ∀ c, c ∈ take 26 deck ∨ c ∈ drop 26 deck ↔ 0 ≤ c ≤ 51).
  { intros c. rewrite <- Hin, <- elem_of_app. by rewrite take_drop. }
  repeat split; try done; simpl; try lia; by apply Hcover.
Qed.

(** ** readexactly *)

Lemma readexactly_loop_end_of_stream (fuel : nat) (s : Side) (numbytes : nat) :
  ∀ (recieved_data : bytes) (st : State),
    (length recieved_data < numbytes)%nat →
    rx (sock s st) = [] → closed (sock s st) = false →
    (readexactly_loop fuel s numbytes recieved_data st).1 = Ok None.
Proof.
  induction fuel as [|fuel IH]; intros data st Hlen Hrx Hopen; simpl;
    rewrite bool_decide_eq_true_2 by done; [done|].
  unfold mbind, ST_bind, recv. rewrite Hopen, Hrx. simpl.
  rewrite app_nil_r. apply IH; [done|by destruct s..].
Qed.

(** C2 (the code does not do this): [readexactly] does not end on a stream
    that delivers fewer than [numbytes] bytes and is then closed by the peer.
    Whatever the number of iterations allowed, the loop is still running and
    no exception has been raised. *)
Theorem readexactly_spins_at_end_of_stream (fuel : nat) (data : bytes) (numbytes : nat) :
  (length data < numbytes)%nat →
  (readexactly fuel One numbytes (accepted [RecvData data] [] [] [])).1 = Ok None.
Proof.
  intros Hlen. unfold readexactly, mbind, ST_bind, recv. simpl.
  rewrite bool_decide_eq_true_2 by lia. simpl.
  by apply readexactly_loop_end_of_stream.
Qed.

Lemma readexactly_spins_at_end_of_stream_witness :
  (readexactly 1000 One 2 (accepted [RecvData [0]] [] [] [])).1 = Ok None.
Proof. apply (readexactly_spins_at_end_of_stream 1000 [0] 2). simpl. lia. Defined.

(** The loop asks for [numbytes] again at every turn, so the result can be
    longer than [numbytes]. *)
Example readexactly_returns_three_bytes :
  (readexactly 5 One 2 (accepted [RecvData [2]; RecvData [7; 2]] [] [] [])).1
  = Ok (Some [2; 7; 2]).
Proof. reflexivity. Qed.

Example readexactly_two_bytes :
  (readexactly 5 One 2 (accepted [RecvData [2; 7]] [] [] [])).1 = Ok (Some [2; 7]).
Proof. reflexivity. Qed.

(** ** The session *)




Example first_message_check_not_reached :
  let r := handle_game_clients zero_rng
             (accepted [RecvData [Command_value PLAYCARD; 7]] [] [RecvError] []) in
  r.1 = Raise OSError ∧
  trace r.2 = [EvRecv One (Ok [Command_value PLAYCARD; 7]); EvRecv Two (Raise OSError)] ∧
  closed (sock_one r.2) = false ∧ closed (sock_two r.2) = false.
Proof. vm_compute. by repeat split. Qed.



(** Player one plays card 12, player two card 0: win for one, lose for two. *)
Example round_of_12_and_0 :
  delivered One (trace (round 1
    (mkState (mkSock [RecvData [2; 12]] [] false) (mkSock [RecvData [2; 0]] [] false) []
             (mkFrame (Some [0; 0]) (Some [0; 0]) None None))).2)
  = [[Command_value PLAYRESULT; Result_value WIN]] ∧
  delivered Two (trace (round 1
    (mkState (mkSock [RecvData [2; 12]] [] false) (mkSock [RecvData [2; 0]] [] false) []
             (mkFrame (Some [0; 0]) (Some [0; 0]) None None))).2)
  = [[Command_value PLAYRESULT; Result_value LOSE]].
Proof. by split. Qed.

(** ** Closing and handled failures *)

Lemma close_calls_app (s : Side) (t1 t2 : list Event) :
  close_calls s (t1 ++ t2) = (close_calls s t1 + close_calls s t2)%nat.
Proof. unfold close_calls. by rewrite filter_app, length_app. Qed.

Lemma errors_logged_app (t1 t2 : list Event) :
  errors_logged (t1 ++ t2) = (errors_logged t1 + errors_logged t2)%nat.
Proof. unfold errors_logged. by rewrite filter_app, length_app. Qed.

Lemma in_step_app (t1 t2 : list Event) (n : nat) :
  in_step t1 0 → in_step t2 n → in_step (t1 ++ t2) n.
Proof.
  unfold in_step. rewrite !close_calls_app, errors_logged_app. lia.
Qed.

Lemma closed_after_app (b : bool) (s : Side) (t1 t2 : list Event) :
  b || bool_decide (0 < close_calls s t1)%nat || bool_decide (0 < close_calls s t2)%nat
  = b || bool_decide (0 < close_calls s (t1 ++ t2))%nat.
Proof.
  rewrite close_calls_app. destruct b; simpl; [done|].
  repeat case_bool_decide; simpl; try done; lia.
Qed.

Lemma tracks_ret {A} (a : A) (d : A → nat) : d a = 0%nat → tracks (mret a) d.
Proof.
  intros Hd st. exists []. simpl. rewrite app_nil_r, Hd.
  split_and!; [done|done|]. intros s. by rewrite orb_false_r.
Qed.

Lemma tracks_bind {A B} (m : ST State A) (k : A → ST State B) (d : B → nat) :
  tracks m (λ _, 0%nat) → (∀ a, tracks (k a) d) → tracks (m ≫= k) d.
Proof.
  intros Hm Hk st. destruct (Hm st) as (t1 & Htr1 & Hstep1 & Hcl1).
  unfold mbind, ST_bind. destruct (m st) as [[a|e] st1]; simpl in *.
  - destruct (Hk a st1) as (t2 & Htr2 & Hstep2 & Hcl2).
    exists (t1 ++ t2). split_and!.
    + by rewrite Htr2, Htr1, app_assoc.
    + by apply in_step_app.
    + intros s. by rewrite Hcl2, Hcl1, closed_after_app.
  - exists t1. by split_and!.
Qed.

Lemma tracks_try_except {A} (body handler : ST State A) (cls : exn) (d : A → nat) :
  tracks body d → tracks handler d → tracks (try_except body cls handler) d.
Proof.
  intros Hb Hh st. destruct (Hb st) as (t1 & Htr1 & Hstep1 & Hcl1).
  unfold try_except. destruct (body st) as [[a|e] st1]; simpl in *.
  - exists t1. by split_and!.
  - destruct (isinstance e cls); simpl.
    + destruct (Hh st1) as (t2 & Htr2 & Hstep2 & Hcl2).
      exists (t1 ++ t2). split_and!.
      * by rewrite Htr2, Htr1, app_assoc.
      * by apply in_step_app.
      * intros s. by rewrite Hcl2, Hcl1, closed_after_app.
    + exists t1. by split_and!.
Qed.

Lemma tracks_quiet {A} (m : ST State A) (d : A → nat) :
  (∀ st, ∃ e, trace (m st).2 = trace st ++ [e] ∧
              is_close One e = false ∧ is_close Two e = false ∧ is_error_log e = false ∧
              ∀ s, closed (sock s (m st).2) = closed (sock s st)) →
  (∀ st a, (m st).1 = Ok a → d a = 0%nat) →
  tracks m d.
Proof.
  intros Hm Hd st. destruct (Hm st) as (e & Htr & H1 & H2 & H3 & Hcl).
  exists [e]. split_and!; [done| |].
  - unfold in_step, close_calls, errors_logged. simpl.
    rewrite !filter_cons, H1, H2, H3. simpl.
    destruct ((m st).1) eqn:Hr; [by rewrite (Hd st a Hr)|done].
  - intros s. rewrite Hcl. unfold close_calls. rewrite filter_cons.
    destruct s; rewrite ?H1, ?H2; simpl; by rewrite orb_false_r.
Qed.

Lemma trace_set_sock (s : Side) (k : Sock) (st : State) :
  trace (set_sock s k st) = trace st.
Proof. by destruct s. Qed.

Lemma closed_set_sock (s s' : Side) (k : Sock) (st : State) :
  closed k = closed (sock s st) →
  closed (sock s' (set_sock s k st)) = closed (sock s' st).
Proof. by destruct s, s'. Qed.

Lemma sock_emit (s : Side) (e : Event) (st : State) : sock s (emit e st) = sock s st.
Proof. by destruct s. Qed.

Lemma tracks_recv (s : Side) (n : nat) : tracks (recv s n) (λ _, 0%nat).
Proof.
  apply tracks_quiet; [|done]. intros st. eexists. unfold recv. simpl.
  rewrite trace_set_sock.
  split_and!; [reflexivity|done..|].
  intros s'. rewrite sock_emit. apply closed_set_sock.
  destruct (closed (sock s st)) eqn:Hc; simpl; [done|].
  repeat case_match; simpl; done.
Qed.

Lemma tracks_sendall (s : Side) (data : bytes) : tracks (sendall s data) (λ _, 0%nat).
Proof.
  apply tracks_quiet; [|done]. intros st. eexists. unfold sendall. simpl.
  rewrite trace_set_sock.
  split_and!; [reflexivity|done..|].
  intros s'. rewrite sock_emit. apply closed_set_sock.
  destruct (closed (sock s st)) eqn:Hc; simpl; [done|].
  repeat case_match; simpl; done.
Qed.

Lemma tracks_silent {A} (m : ST State A) (d : A → nat) :
  (∀ st, trace (m st).2 = trace st ∧ ∀ s, closed (sock s (m st).2) = closed (sock s st)) →
  (∀ st a, (m st).1 = Ok a → d a = 0%nat) →
  tracks m d.
Proof.
  intros Hm Hd st. destruct (Hm st) as [Htr Hcl]. exists [].
  rewrite app_nil_r. split_and!; [done| |].
  - destruct ((m st).1) eqn:Hr; [by rewrite (Hd st a Hr)|done].
  - intros s. by rewrite Hcl, orb_false_r.
Qed.

Lemma tracks_load (v : Frame → option (list Z)) : tracks (load v) (λ _, 0%nat).
Proof.
  apply tracks_silent; [|done]. intros st. unfold load.
  destruct (v (frame st)); simpl; split; done.
Qed.

Lemma tracks_store (upd : Frame → Frame) : tracks (store upd) (λ _, 0%nat).
Proof.
  apply tracks_silent; [|done]. intros st. unfold store. simpl.
  split; [done|]. by intros [].
Qed.

Lemma tracks_lift_res {A} (r : res A) : tracks (lift_res r) (λ _, 0%nat).
Proof. apply tracks_silent; [|done]. intros st. by split. Qed.

Lemma tracks_logging_debug (m : string) (a : list LogArg) :
  tracks (logging DEBUG m a) (λ _, 0%nat).
Proof.
  apply tracks_quiet; [|done]. intros st. eexists. unfold logging, emit. simpl.
  split_and!; [reflexivity|done..|]. by intros [].
Qed.

(** An [except] clause of the session: one error logged, one [kill_game]. *)
Lemma tracks_handler (m : string) (a : list LogArg) :
  tracks (logging ERROR m a;; kill_game (One, Two)) (λ _, 0%nat).
Proof.
  intros st. exists [EvLog (mkLog ERROR m a); EvClose One; EvClose Two].
  st_unfold. simpl. rewrite <- !app_assoc. split_and!; [done|done|].
  intros []; simpl; by rewrite orb_true_r.
Qed.

(** [kill_game] followed by a [return]. *)
Lemma tracks_kill_return {A} (a : A) (d : A → nat) :
  d a = 1%nat → tracks (kill_game (One, Two);; mret a) d.
Proof.
  intros Hd st. exists [EvClose One; EvClose Two].
  st_unfold. simpl. rewrite <- !app_assoc, Hd. split_and!; [done|done|].
  intros []; simpl; by rewrite orb_true_r.
Qed.

Lemma tracks_for_range (range : list Z) (body : Z → ST State ctrl) :
  (∀ i, tracks (body i) ctrl_closes) → tracks (for_range range body) ctrl_closes.
Proof.
  intros Hbody. induction range as [|i range IH]; simpl.
  - by apply tracks_ret.
  - intros st. destruct (Hbody i st) as (t1 & Htr1 & Hstep1 & Hcl1).
    unfold mbind, ST_bind. destruct (body i st) as [[[|e]|e] st1]; simpl in *.
    + destruct (IH st1) as (t2 & Htr2 & Hstep2 & Hcl2).
      exists (t1 ++ t2). split_and!.
      * by rewrite Htr2, Htr1, app_assoc.
      * by apply in_step_app.
      * intros s. by rewrite Hcl2, Hcl1, closed_after_app.
    + exists t1. by split_and!.
    + exists t1. by split_and!.
Qed.

Create HintDb tracks.
#[local] Hint Resolve tracks_recv tracks_sendall tracks_load tracks_store tracks_lift_res
  tracks_logging_debug tracks_handler : tracks.

Ltac tracks_step :=
  first
    [ apply tracks_kill_return; reflexivity
    | apply tracks_ret; reflexivity
    | solve [auto with tracks]
    | apply tracks_try_except
    | apply tracks_bind; [|intros ?]
    | case_bool_decide
    | match goal with |- tracks (if ?b then _ else _) _ => destruct b eqn:? end
    | match goal with |- tracks (match ?c with _ => _ end) _ => destruct c eqn:? end ].

Lemma tracks_round (i : Z) : tracks (round i) ctrl_closes.
Proof. unfold round. repeat tracks_step. Qed.

Lemma tracks_bind_return {A B} (m : ST State A) (k : A → ST State B) (f : A → B)
    (dA : A → nat) (dB : B → nat) :
  tracks m dA → (∀ a st, k a st = (Ok (f a), st)) → (∀ a, dB (f a) = dA a) →
  tracks (m ≫= k) dB.
Proof.
  intros Hm Hk Hd st. destruct (Hm st) as (t & Htr & Hstep & Hcl).
  exists t. unfold mbind, ST_bind.
  destruct (m st) as [[a|e] st1]; simpl in *; [|done].
  rewrite Hk. simpl. by rewrite Hd.
Qed.

Lemma tracks_handle_game_clients (rng : nat → nat) :
  tracks (handle_game_clients rng) exit_closes.
Proof.
  unfold handle_game_clients.
  do 6 (apply tracks_bind; [repeat tracks_step|intros ?]).
  destruct (_ || _).
  - apply tracks_kill_return. reflexivity.
  - do 3 (apply tracks_bind; [repeat tracks_step|intros ?]).
    apply (tracks_bind_return _ _
             (λ c, match c with Next => ReturnEnd | Return e => e end) ctrl_closes).
    + apply tracks_for_range, tracks_round.
    + by intros [|e] st.
    + by intros [|e].
Qed.

Example dealt_under_zero_rng :
  deal_cards zero_rng = Ok (1 :: seqZ 1 26, 1 :: seqZ 27 25 ++ [0]).
Proof. reflexivity. Qed.

(** A session in which nothing fails: 26 rounds, no [close]. *)
Lemma full_game_leaves_connections_open :
  ¬ closes_each_exactly_once zero_rng peer_one [] peer_two [].
Proof. unfold closes_each_exactly_once. vm_compute. intros [H _]. discriminate H. Qed.

Example full_game_returns_at_the_end :
  let r := handle_game_clients zero_rng (accepted peer_one [] peer_two []) in
  r.1 = Ok ReturnEnd ∧
  rounds_ended (trace r.2) = ArgInt <$> seqZ 1 26 ∧
  errors_logged (trace r.2) = 0%nat ∧
  close_calls One (trace r.2) = 0%nat ∧ close_calls Two (trace r.2) = 0%nat ∧
  closed (sock_one r.2) = false ∧ closed (sock_two r.2) = false.
Proof. vm_compute. by repeat split. Qed.

(** C1, amended: in a session that handled no failure (no [except] clause
    ran, so no error was logged), a return after a failed check, of the
    [WANTGAME] bytes or of a [PLAYCARD] tag, has closed both connections
    exactly once, and the return after round 26 has closed neither: both are
    still open. *)
Theorem closes_once_on_violation_none_on_completion (rng : nat → nat)
    (rx1 : list RecvOutcome) (tx1 : list bool) (rx2 : list RecvOutcome) (tx2 : list bool)
    (e : Exit) (st' : State) :
  handle_game_clients rng (accepted rx1 tx1 rx2 tx2) = (Ok e, st') →
  errors_logged (trace st') = 0%nat →
  (e ≠ ReturnEnd →
     close_calls One (trace st') = 1%nat ∧ close_calls Two (trace st') = 1%nat ∧
     closed (sock_one st') = true ∧ closed (sock_two st') = true) ∧
  (e = ReturnEnd →
     close_calls One (trace st') = 0%nat ∧ close_calls Two (trace st') = 0%nat ∧
     closed (sock_one st') = false ∧ closed (sock_two st') = false).
Proof.
  intros Hrun Herr.
  destruct (tracks_handle_game_clients rng (accepted rx1 tx1 rx2 tx2))
    as (t & Htr & [Hc1 Hc2] & Hcl).
  rewrite Hrun in *. simpl in *. subst t. rewrite Herr in *. simpl in *.
  pose proof (Hcl One) as Hcl1. pose proof (Hcl Two) as Hcl2. simpl in *.
  rewrite Hcl1, Hcl2, Hc1, Hc2.
  split; intros He; destruct e; try done; by repeat split.
Qed.

Lemma closes_once_on_violation_none_on_completion_witness :
  let r := handle_game_clients zero_rng
             (accepted [RecvData [0; 0]] [] [RecvData [Command_value PLAYCARD; 7]] []) in
  r.1 = Ok ReturnWantGame ∧
  errors_logged (trace r.2) = 0%nat ∧
  close_calls One (trace r.2) = 1%nat ∧ close_calls Two (trace r.2) = 1%nat ∧
  closed (sock_one r.2) = true ∧ closed (sock_two r.2) = true.
Proof.
  intros r.
  destruct (closes_once_on_violation_none_on_completion zero_rng
              [RecvData [0; 0]] [] [RecvData [Command_value PLAYCARD; 7]] []
              ReturnWantGame r.2) as [Hkill _].
  - reflexivity.
  - reflexivity.
  - split; [reflexivity|]. split; [reflexivity|]. apply Hkill. discriminate.
Defined.

(** The session with a second message of player one that is a [PLAYRESULT]:
    killed at the tag check of round 2, closed once. *)
Example bad_tag_in_round_two :
  let r := handle_game_clients zero_rng
             (accepted [RecvData [0; 0]; RecvData [2; 1]; RecvData [3; 0]] []
                       [RecvData [0; 0]; RecvData [2; 27]; RecvData [2; 28]] []) in
  r.1 = Ok ReturnTagOne ∧
  rounds_ended (trace r.2) = [ArgInt 1] ∧
  close_calls One (trace r.2) = 1%nat ∧ close_calls Two (trace r.2) = 1%nat.
Proof. vm_compute. by repeat split. Qed.

(** C3 (the code does not do this): the [sendall] of player one's result of
    round 1 fails.  The [except] clause logs and calls [kill_game], and the
    loop goes on: rounds 2 to 26 run on the closed sockets with the cards of
    round 1, each one handles a failed [recv] and a failed [sendall] and calls
    [kill_game] twice, and the function returns at the end of round 26. *)
Theorem failed_result_send_does_not_end_session :
  let r := handle_game_clients zero_rng (accepted peer_one [true; false] peer_two []) in
  r.1 = Ok ReturnEnd ∧
  rounds_ended (trace r.2) = ArgInt <$> seqZ 1 26 ∧
  take 8 (after_failed_send (trace r.2)) =
    [ EvLog (mkLog ERROR "Could not send round results to players!" []);
      EvClose One; EvClose Two;
      EvLog (mkLog DEBUG "End of Round: %d" [ArgInt 1]);
      EvRecv One (Raise OSError);
      EvLog (mkLog ERROR "Error happened when receiving response from players during round!" []);
      EvClose One; EvClose Two ] ∧
  length (sendall_calls One (trace r.2)) = 27%nat ∧
  delivered One (trace r.2) = [1 :: seqZ 1 26] ∧
  delivered Two (trace r.2) = [1 :: seqZ 27 25 ++ [0]] ∧
  close_calls One (trace r.2) = 51%nat ∧ close_calls Two (trace r.2) = 51%nat.
Proof. vm_compute. by repeat split. Qed.

(** The [sendall] of player one's hand fails: [kill_game], then round 1 starts,
    its [recv] fails on the closed socket, [kill_game] again, and the unbound
    [player_one_play_card] ends the function with an exception. *)
Example failed_hand_send_runs_into_round_one :
  let r := handle_game_clients zero_rng (accepted peer_one [false] peer_two []) in
  r.1 = Raise UnboundLocalError ∧
  after_failed_send (trace r.2) =
    [ EvLog (mkLog ERROR "Sending cards to players resulted in an error" []);
      EvClose One; EvClose Two;
      EvLog (mkLog DEBUG "Successfully sent cards to both players" []);
      EvRecv One (Raise OSError);
      EvLog (mkLog ERROR "Error happened when receiving response from players during round!" []);
      EvClose One; EvClose Two ] ∧
  close_calls One (trace r.2) = 2%nat ∧ close_calls Two (trace r.2) = 2%nat.
Proof. vm_compute. by repeat split. Qed.

(** ** The client agent *)

Lemma client_rounds (hand : list Z) :
  ∀ (results : list (Z * Z)) (rest : bytes) (c : res unit) (e : exn) (score : Z)
    (t : list ClientEvent),
    length results = length hand →
    for_each hand client_round
      (mkClient c (concat ((λ r, [r.1; r.2]) <$> results) ++ rest) e score t)
    = (Ok (), mkClient c rest e (score + total_score results)
                (t ++ rounds_trace hand results)).
Proof.
  induction hand as [|card hand IH]; intros results rest c e score t Hlen.
  - destruct results; [|done]. simpl. unfold mret, ST_ret, rounds_trace. simpl.
    by rewrite Z.add_0_r, app_nil_r.
  - destruct results as [|[a b] results]; [done|]. simpl in Hlen.
    change (for_each (card :: hand) client_round) with
      (client_round card;; for_each hand client_round).
    unfold mbind at 1. unfold ST_bind at 1.
    assert (Hround : client_round card
        (mkClient c (concat ((λ r, [r.1; r.2]) <$> (a, b) :: results) ++ rest) e score t)
      = (Ok (), mkClient c (concat ((λ r, [r.1; r.2]) <$> results) ++ rest) e
                  (score + round_score b)
                  (t ++ [CEvWrite [Command_value PLAYCARD; card]; CEvRead 2 (Ok [a; b])]))).
    { unfold client_round, writer_write, reader_readexactly, get_myscore, set_myscore,
        cemit, round_score.
      unfold mbind, ST_bind, mret, ST_ret, lift_res. simpl.
      rewrite <- !app_assoc. simpl.
      repeat case_bool_decide; simpl; try done; try lia.
      by rewrite Z.add_0_r. }
    rewrite Hround. rewrite IH by lia. f_equal. f_equal.
    + unfold total_score. simpl. lia.
    + unfold rounds_trace. simpl. by rewrite <- !app_assoc.
Qed.

Lemma reader_readexactly_prefix (n : nat) (pre post : bytes) (c : res unit) (e : exn)
    (score : Z) (t : list ClientEvent) :
  length pre = n →
  reader_readexactly n (mkClient c (pre ++ post) e score t)
  = (Ok pre, mkClient c post e score (t ++ [CEvRead n (Ok pre)])).
Proof.
  intros Hn. unfold reader_readexactly, cemit. simpl.
  rewrite bool_decide_eq_true_2 by (rewrite length_app; lia). simpl.
  by rewrite take_app_length', drop_app_length'.
Qed.

Lemma reader_readexactly_enough (n : nat) (data : bytes) (c : res unit) (e : exn)
    (score : Z) (t : list ClientEvent) :
  (n ≤ length data)%nat →
  reader_readexactly n (mkClient c data e score t)
  = (Ok (take n data), mkClient c (drop n data) e score (t ++ [CEvRead n (Ok (take n data))])).
Proof.
  intros Hn. unfold reader_readexactly, cemit. simpl.
  by rewrite bool_decide_eq_true_2.
Qed.

Lemma classify_sign (score : Z) :
  (classify score = "won" ↔ score > 0) ∧
  (classify score = "lost" ↔ score < 0) ∧
  (classify score = "drew" ↔ score = 0).
Proof.
  unfold classify. repeat case_bool_decide; repeat split; intros; try done; lia.
Qed.

(** The run of the client on a stream that holds a whole game. *)
Lemma client_run_on_game_stream (tag : Z) (hand : list Z)
    (results : list (Z * Z)) (rest : bytes) (e : exn) :
  length hand = 26%nat → length results = 26%nat →
  let r := client (connecting (Ok ()) (game_stream tag hand results ++ rest) e) in
  let score := total_score results in
  r.1 = Ok 1 ∧
  myscore r.2 = score ∧
  ctrace r.2 =
    [CEvConnect (Ok ()); CEvWrite [0; 0]; CEvRead 27 (Ok (tag :: hand))]
    ++ rounds_trace hand results
    ++ [CEvLog (mkLog DEBUG "Game complete, I %s" [ArgStr (classify score)]); CEvClose] ∧
  (classify score = "won" ↔ score > 0) ∧
  (classify score = "lost" ↔ score < 0) ∧
  (classify score = "drew" ↔ score = 0).
Proof.
  intros Hhand Hres r score.
  assert (Hrun : r = (Ok 1, mkClient (Ok ()) rest e score
    ([CEvConnect (Ok ()); CEvWrite [0; 0]; CEvRead 27 (Ok (tag :: hand))]
     ++ rounds_trace hand results
     ++ [CEvLog (mkLog DEBUG "Game complete, I %s" [ArgStr (classify score)]); CEvClose]))).
  { subst r. unfold client, try_excepts, client_body, connecting, game_stream.
    unfold mbind at 1 2 3. unfold ST_bind at 1 2 3.
    unfold open_connection, writer_write, cemit.
    cbn [connect_result incoming at_end myscore ctrace fst snd].
    rewrite <- (app_assoc (tag :: hand)).
    rewrite (reader_readexactly_prefix 27 (tag :: hand)) by (simpl; lia).
    unfold mbind at 1. unfold ST_bind at 1. unfold set_myscore at 1.
    cbn [connect_result incoming at_end myscore ctrace fst snd app drop].
    unfold mbind at 1. unfold ST_bind at 1.
    rewrite drop_0, client_rounds by lia.
    unfold mbind, ST_bind, get_myscore, clogging, writer_close, cemit, mret, ST_ret. simpl.
    by rewrite <- !app_assoc. }
  rewrite Hrun. simpl. split_and!; try done; apply classify_sign.
Qed.

Lemma pairs_concat (n : nat) :
  ∀ l : list Z, length l = (2 * n)%nat →
    concat ((λ r, [r.1; r.2]) <$> pairs l) = l ∧ length (pairs l) = n.
Proof.
  induction n as [|n IH]; intros l Hlen.
  - by destruct l.
  - destruct l as [|a [|b l]]; simpl in Hlen; try lia.
    destruct (IH l) as [Hc Hl]; [lia|]. simpl.
    split; [do 2 f_equal; exact Hc|f_equal; exact Hl].
Qed.

(** A stream that runs out before the hand is played ends the loop with the
    exception of its end. *)
Lemma client_rounds_short (hand : list Z) :
  ∀ st : ClientState, (length (incoming st) < 2 * length hand)%nat →
    ∃ x, (for_each hand client_round st).1 = Raise x.
Proof.
  induction hand as [|card hand IH]; intros [c data e score t] Hlen; simpl in Hlen; [lia|].
  change (for_each (card :: hand) client_round) with
    (client_round card;; for_each hand client_round).
  unfold mbind at 1. unfold ST_bind at 1.
  destruct data as [|a [|b more]].
  - exists e. reflexivity.
  - exists e. reflexivity.
  - assert (Hround : ∃ score', client_round card (mkClient c (a :: b :: more) e score t)
      = (Ok (), mkClient c more e score'
                  (t ++ [CEvWrite [Command_value PLAYCARD; card]; CEvRead 2 (Ok [a; b])]))).
    { unfold client_round, writer_write, reader_readexactly, get_myscore, set_myscore, cemit.
      unfold mbind, ST_bind, mret, ST_ret, lift_res. simpl.
      rewrite <- !app_assoc. simpl.
      repeat case_bool_decide; simpl; eauto. }
    destruct Hround as [score' ->]. apply IH. simpl in *. lia.
Qed.

Lemma client_body_raises (c : res unit) (data : bytes) (e : exn) :
  c ≠ Ok () ∨ (length data < 79)%nat →
  ∃ x, (client_body (connecting c data e)).1 = Raise x.
Proof.
  intros Hbad. unfold client_body, connecting.
  unfold mbind at 1. unfold ST_bind at 1. unfold open_connection at 1.
  unfold cemit. cbn [connect_result incoming at_end myscore ctrace fst snd app].
  destruct c as [[]|x]; [|by exists x].
  destruct Hbad as [Hc|Hshort]; [done|].
  unfold mbind at 1. unfold ST_bind at 1. unfold writer_write at 1.
  unfold cemit. cbn [connect_result incoming at_end myscore ctrace fst snd app].
  unfold mbind at 1. unfold ST_bind at 1.
  destruct (decide (27 ≤ length data)%nat) as [Hlong|Hlt].
  - rewrite reader_readexactly_enough by done.
    unfold mbind at 1. unfold ST_bind at 1. unfold set_myscore at 1.
    cbn [connect_result incoming at_end myscore ctrace fst snd].
    unfold mbind at 1. unfold ST_bind at 1.
    match goal with
    | |- context [for_each ?h client_round ?st] =>
        destruct (client_rounds_short h st) as [x Hx];
          [cbn [incoming]; rewrite !length_drop, length_take; lia|];
        destruct (for_each h client_round st) as [[u|x'] st1]
    end; simpl in *; [done|by exists x'].
  - exists e. unfold reader_readexactly. cbn [incoming].
    rewrite bool_decide_eq_false_2 by lia. reflexivity.
Qed.

Lemma client_returns_0_or_raises (st : ClientState) (x : exn) :
  (client_body st).1 = Raise x → (client st).1 ≠ Ok 1.
Proof.
  unfold client, try_excepts. destruct (client_body st) as [[a|x'] st1]; simpl; [done|].
  intros [= ->]. destruct x; simpl; discriminate.
Qed.

(** The client returns 1 only on an open connection and a stream of at least
    the 79 bytes of a game. *)
Lemma client_completes_only_on_whole_game (c : res unit) (data : bytes) (e : exn) :
  (client (connecting c data e)).1 = Ok 1 → c = Ok () ∧ (79 ≤ length data)%nat.
Proof.
  intros Hrun.
  assert (Hc : c = Ok ()).
  { destruct c as [[]|x0]; [done|].
    destruct (client_body_raises (Raise x0) data e) as [x Hx]; [by left|].
    by destruct (client_returns_0_or_raises _ x Hx). }
  split; [done|].
  destruct (decide (79 ≤ length data)%nat) as [Hlen|Hlen]; [done|].
  destruct (client_body_raises c data e) as [x Hx]; [right; lia|].
  by destruct (client_returns_0_or_raises _ x Hx).
Qed.

(** C8: every run of the client that completes the 26 rounds (it returns 1)
    has read a [GAMESTART] message with a hand of 26 cards and 26 two-byte
    results.  It wrote the [WANTGAME] bytes, read the hand, then for each of
    the 26 cards of the hand, in order, wrote one [PLAYCARD] message with
    that card and read one result; its score is the sum over the rounds of
    [+1] for a win byte, [-1] for a lose byte and [0] otherwise; it logged won
    for a positive score, lost for a negative one and drew for zero, and
    closed. *)
Theorem client_plays_hand_in_order_and_scores (c : res unit) (data : bytes) (e : exn) :
  let r := client (connecting c data e) in
  r.1 = Ok 1 →
  ∃ (tag : Z) (hand : list Z) (results : list (Z * Z)) (rest : bytes),
    c = Ok () ∧
    data = game_stream tag hand results ++ rest ∧
    length hand = 26%nat ∧ length results = 26%nat ∧
    myscore r.2 = total_score results ∧
    ctrace r.2 =
      [CEvConnect (Ok ()); CEvWrite [0; 0]; CEvRead 27 (Ok (tag :: hand))]
      ++ rounds_trace hand results
      ++ [CEvLog (mkLog DEBUG "Game complete, I %s" [ArgStr (classify (total_score results))]);
          CEvClose] ∧
    (classify (total_score results) = "won" ↔ total_score results > 0) ∧
    (classify (total_score results) = "lost" ↔ total_score results < 0) ∧
    (classify (total_score results) = "drew" ↔ total_score results = 0).
Proof.
  intros r Hrun. subst r.
  destruct (client_completes_only_on_whole_game c data e Hrun) as [-> Hlen].
  destruct data as [|tag data]; [simpl in Hlen; lia|]. simpl in Hlen.
  destruct (pairs_concat 26 (take 52 (drop 26 data))) as [Hconcat Hpairs].
  { rewrite length_take, length_drop. lia. }
  assert (Hdata : tag :: data
    = game_stream tag (take 26 data) (pairs (take 52 (drop 26 data))) ++ drop 78 data).
  { unfold game_stream. rewrite Hconcat. simpl. f_equal.
    rewrite <- app_assoc.
    replace (drop 78 data) with (drop 52 (drop 26 data)) by (by rewrite drop_drop).
    by rewrite !take_drop. }
  exists tag, (take 26 data), (pairs (take 52 (drop 26 data))), (drop 78 data).
  assert (Hhand : length (take 26 data) = 26%nat) by (rewrite length_take; lia).
  split; [done|]. split; [exact Hdata|]. split; [exact Hhand|]. split; [exact Hpairs|].
  rewrite Hdata at 1 2.
  destruct (client_run_on_game_stream tag (take 26 data) (pairs (take 52 (drop 26 data)))
              (drop 78 data) e Hhand Hpairs) as (_ & Hscore & Htrace & Hsigns).
  split; [exact Hscore|]. split; [exact Htrace|]. exact Hsigns.
Qed.

Lemma client_plays_hand_in_order_and_scores_witness :
  let r := client (connecting (Ok ()) (game_stream 1 (seqZ 1 26) some_results)
                     IncompleteReadError) in
  r.1 = Ok 1 ∧
  ∃ (tag : Z) (hand : list Z) (results : list (Z * Z)) (rest : bytes),
    game_stream 1 (seqZ 1 26) some_results = game_stream tag hand results ++ rest ∧
    length hand = 26%nat ∧
    myscore r.2 = total_score results ∧
    (classify (total_score results) = "won" ↔ total_score results > 0).
Proof.
  intros r. split; [reflexivity|].
  destruct (client_plays_hand_in_order_and_scores (Ok ())
              (game_stream 1 (seqZ 1 26) some_results) IncompleteReadError)
    as (tag & hand & results & rest & _ & Hdata & Hhand & _ & Hscore & _ & Hwon & _).
  - reflexivity.
  - exists tag, hand, results, rest.
    split; [exact Hdata|]. split; [exact Hhand|]. split; [exact Hscore|]. exact Hwon.
Defined.

(** The score of [some_results]: nine wins, nine draws, eight losses. *)
Example some_results_score :
  total_score some_results = 1 ∧ classify (total_score some_results) = "won".
Proof. by split. Qed.

Example client_incomplete_read :
  (client (connecting (Ok ()) (game_stream 1 (seqZ 1 26) (take 5 some_results))
             IncompleteReadError)).1 = Ok 0.
Proof. reflexivity. Qed.

(** ** The client limiter *)

Lemma count_cons (f : Agent → bool) (x : Agent) (l : list Agent) :
  length (filter (λ a, f a) (x :: l))
  = ((if f x then 1 else 0) + length (filter (λ a, f a) l))%nat.
Proof. rewrite filter_cons. by destruct (f x). Qed.

Lemma count_replicate_Waiting (f : Agent → bool) (n : nat) :
  length (filter (λ a, f a) (replicate n Waiting)) = if f Waiting then n else 0%nat.
Proof.
  induction n as [|n IH]; simpl; [by destruct (f Waiting)|].
  rewrite count_cons, IH. by destruct (f Waiting).
Qed.

Lemma count_insert (f : Agent → bool) (l : list Agent) :
  ∀ (i : nat) (a b : Agent), l !! i = Some b →
    (length (filter (λ a, f a) (<[i:=a]> l)) + (if f b then 1 else 0)
     = length (filter (λ a, f a) l) + (if f a then 1 else 0))%nat.
Proof.
  induction l as [|x l IH]; intros i a b Hi; [done|].
  destruct i as [|i]; simpl in *.
  - simplify_eq. rewrite !count_cons. destruct (f a), (f b); lia.
  - specialize (IH i a b Hi). rewrite !count_cons. lia.
Qed.

Lemma count_pos_lookup (f : Agent → bool) (l : list Agent) :
  (0 < length (filter (λ a, f a) l))%nat → ∃ i a, l !! i = Some a ∧ f a = true.
Proof.
  intros Hpos. destruct (filter (λ a, f a) l) as [|a l'] eqn:Hfl; [simpl in Hpos; lia|].
  assert (Ha : a ∈ filter (λ a, f a) l) by (rewrite Hfl; left).
  apply list_elem_of_filter in Ha as [Hfa Hin].
  apply list_elem_of_lookup in Hin as [i Hi].
  exists i, a. split; [done|]. by apply Is_true_true.
Qed.

Lemma count_partition (l : list Agent) :
  (length (filter (λ a, is_waiting a) l) + length (filter (λ a, is_in_flight a) l)
   + length (filter (λ a, is_finished a) l) = length l)%nat.
Proof.
  induction l as [|x l IH]; [done|]. rewrite !count_cons.
  destruct x; simpl; lia.
Qed.

Lemma count_all (f : Agent → bool) (l : list Agent) :
  length (filter (λ a, f a) l) = length l → Forall (λ a, f a = true) l.
Proof.
  induction l as [|x l IH]; intros Hall; [constructor|].
  rewrite count_cons in Hall.
  pose proof (length_filter (λ a, f a) l) as Hle. simpl in Hall.
  destruct (f x) eqn:Hx; [|lia].
  constructor; [done|]. apply IH. lia.
Qed.

(** What holds of every state the loop reaches. *)
Lemma runs_invariant (L n k : nat) (s : Limiter) :
  runs L n k s →
  length (agents s) = n ∧
  (sem_value s + in_flight s = L)%nat ∧
  (k = in_flight s + 2 * count is_finished s)%nat.
Proof.
  induction 1 as [|k s i r s' Hruns (Hlen & Hsem & Hk) Hres].
  - unfold start_clients, in_flight, count. simpl.
    rewrite length_replicate, !count_replicate_Waiting. simpl. lia.
  - unfold resume in Hres. unfold in_flight, count in *.
    destruct (agents s !! i) as [[| |r0]|] eqn:Hi; [|simplify_eq|done..].
    + destruct (sem_value s) as [|v] eqn:Hv; [done|]. simplify_eq. simpl.
      pose proof (count_insert is_in_flight _ i InFlight Waiting Hi).
      pose proof (count_insert is_finished _ i InFlight Waiting Hi).
      rewrite length_insert. simpl in *. lia.
    + simpl.
      pose proof (count_insert is_in_flight _ i (Finished r) InFlight Hi).
      pose proof (count_insert is_finished _ i (Finished r) InFlight Hi).
      rewrite length_insert. simpl in *. lia.
Qed.

(** C9: with a semaphore of [L > 0] and [n] coroutines, in every state the
    event loop reaches the number of agents that have started and not
    finished is at most [L]; the loop never reaches a state in which it cannot
    go on before all [n] agents have run, which takes [2 * n] resumptions and
    leaves every agent finished. *)
Theorem limiter_bounds_in_flight_and_runs_all (L n k : nat) (s : Limiter) :
  (0 < L)%nat → runs L n k s →
  (in_flight s ≤ L)%nat ∧
  length (agents s) = n ∧
  (k ≤ 2 * n)%nat ∧
  ((k < 2 * n)%nat → ∃ i r s', resume i r s = Some s') ∧
  (k = (2 * n)%nat → Forall (λ a, is_finished a = true) (agents s)).
Proof.
  intros HL Hruns. destruct (runs_invariant L n k s Hruns) as (Hlen & Hsem & Hk).
  pose proof (count_partition (agents s)) as Hpart.
  unfold in_flight, count in *.
  split_and!; [lia|done|lia| |].
  - intros Hlt.
    destruct (decide (0 < length (filter (λ a, is_in_flight a) (agents s)))%nat) as [Hfl|Hnone].
    + apply count_pos_lookup in Hfl as (i & a & Hi & Ha). destruct a; try done.
      exists i, 1, (mkLimiter (S (sem_value s)) (<[i:=Finished 1]> (agents s))).
      unfold resume. by rewrite Hi.
    + assert (Hw : (0 < length (filter (λ a, is_waiting a) (agents s)))%nat) by lia.
      apply count_pos_lookup in Hw as (i & a & Hi & Ha). destruct a; try done.
      destruct (sem_value s) as [|v] eqn:Hv; [lia|].
      exists i, 1, (mkLimiter v (<[i:=InFlight]> (agents s))).
      unfold resume. by rewrite Hi, Hv.
  - intros ->. apply count_all. lia.
Qed.

Lemma limiter_bounds_in_flight_and_runs_all_witness :
  let s := mkLimiter 999 [InFlight; Waiting; Waiting] in
  resume 0 1 (main_clients 3) = Some s ∧
  (in_flight s ≤ 1000)%nat ∧ length (agents s) = 3%nat ∧
  ∃ i r s', resume i r s = Some s'.
Proof.
  intros s.
  assert (Hstep : resume 0 1 (main_clients 3) = Some s) by reflexivity.
  destruct (limiter_bounds_in_flight_and_runs_all 1000 3 1 s)
    as (Hbound & Hlen & _ & Hnext & _).
  - lia.
  - apply (runs_resume 1000 3 0 (start_clients 1000 3) 0 1 s); [apply runs_start|exact Hstep].
  - split; [exact Hstep|]. split; [exact Hbound|]. split; [exact Hlen|]. apply Hnext. lia.
Defined.

(** Two agents under a semaphore of one: the second cannot enter while the
    first is inside, and can once it has finished. *)
Example second_agent_waits :
  resume 1 1 (mkLimiter 0 [InFlight; Waiting]) = None ∧
  resume 0 1 (mkLimiter 0 [InFlight; Waiting]) = Some (mkLimiter 1 [Finished 1; Waiting]) ∧
  resume 1 1 (mkLimiter 1 [Finished 1; Waiting]) = Some (mkLimiter 0 [Finished 1; InFlight]).
Proof. by repeat split. Qed.

(** * Further properties of the program *)

(** ** compare_cards on ranks *)

(** [compare_cards] sees only the ranks: cards of the same ranks compare the
    same, whatever their suits. *)
Theorem compare_cards_same_ranks (a a' b b' : Z) :
  a `mod` 13 = a' `mod` 13 → b `mod` 13 = b' `mod` 13 →
  compare_cards a b = compare_cards a' b'.
Proof. intros Ha Hb. unfold compare_cards. by rewrite Ha, Hb. Qed.

Lemma compare_cards_same_ranks_witness :
  compare_cards 5 40 = compare_cards 18 1 ∧ compare_cards 5 40 = Some 1.
Proof.
  split; [|reflexivity]. apply (compare_cards_same_ranks 5 18 40 1); reflexivity.
Defined.

(** X1: The results of [compare_cards] are those of one order on the cards: less
    than is transitive, equal is transitive, and equal cards compare alike
    with any third card. *)
Theorem compare_cards_transitive (a b c : Z) :
  (compare_cards a b = Some (-1) → compare_cards b c = Some (-1) →
     compare_cards a c = Some (-1)) ∧
  (compare_cards a b = Some 0 → compare_cards b c = Some 0 →
     compare_cards a c = Some 0) ∧
  (compare_cards a b = Some 0 → compare_cards a c = compare_cards b c).
Proof.
  destruct (compare_cards_cases a b) as [[? Hab]|[[? Hab]|[? Hab]]];
    destruct (compare_cards_cases b c) as [[? Hbc]|[[? Hbc]|[? Hbc]]];
    destruct (compare_cards_cases a c) as [[? Hac]|[[? Hac]|[? Hac]]];
    rewrite Hab, Hbc, Hac; repeat split; intros; try done; lia.
Qed.

(** ** From the server's result to the client's score *)

(** X2: For any two cards the server packs two [PLAYRESULT] messages whose result
    bytes the client scores [+1] and [-1], or [0] and [0]: the two scores of a
    round add up to zero, and player one's is the sign of the difference of
    the ranks. *)
Theorem round_scores_cancel (c1 c2 : Z) :
  ∃ b1 b2 : Z,
    pack_results (compare_cards c1 c2)
      = Ok ([Command_value PLAYRESULT; b1], [Command_value PLAYRESULT; b2]) ∧
    round_score b1 = Z.sgn (c1 `mod` 13 - c2 `mod` 13) ∧
    round_score b1 + round_score b2 = 0.
Proof.
  destruct (compare_cards_cases c1 c2) as [[H ->]|[[H ->]|[H ->]]].
  - exists (Result_value LOSE), (Result_value WIN). split_and!; [done| |done].
    change (round_score (Result_value LOSE)) with (-1). lia.
  - exists (Result_value DRAW), (Result_value DRAW). split_and!; [done| |done].
    change (round_score (Result_value DRAW)) with 0. lia.
  - exists (Result_value WIN), (Result_value LOSE). split_and!; [done| |done].
    change (round_score (Result_value WIN)) with 1. lia.
Qed.

(** ** readexactly on streams that deliver *)

Lemma recv_length (s : Side) (n : nat) (st : State) (d : bytes) :
  (recv s n st).1 = Ok d → (length d ≤ n)%nat.
Proof.
  unfold recv. simpl. destruct (closed (sock s st)); [done|].
  destruct (rx (sock s st)) as [|[d'|] rest]; simpl.
  - intros [= <-]. simpl. lia.
  - case_bool_decide; simpl; intros [= <-]; [done|]. rewrite length_take. lia.
  - done.
Qed.

Lemma readexactly_loop_length (fuel : nat) (s : Side) (n : nat) :
  ∀ (acc : bytes) (st : State) (data : bytes),
    (readexactly_loop fuel s n acc st).1 = Ok (Some data) →
    (length acc ≤ 2 * n - 1)%nat →
    (n ≤ length data ≤ 2 * n - 1)%nat.
Proof.
  induction fuel as [|fuel IH]; intros acc st data; simpl; case_bool_decide as Hlt.
  - done.
  - intros [= <-] Hacc. lia.
  - unfold mbind, ST_bind. destruct (recv s n st) as [[d|e] st1] eqn:Hrecv; [|done].
    intros Hloop Hacc. apply (IH _ _ _ Hloop).
    assert (length d ≤ n)%nat by (apply (recv_length s n st); by rewrite Hrecv).
    rewrite length_app. lia.
  - intros [= <-] Hacc. lia.
Qed.

(** X3: Whenever [readexactly] returns, it returns at least [numbytes] bytes and
    fewer than twice as many: every [recv] asks for [numbytes] again, so the
    last one can bring up to [numbytes - 1] bytes too many. *)
Theorem readexactly_length_when_it_returns (fuel : nat) (s : Side) (numbytes : nat)
    (st : State) (data : bytes) :
  (readexactly fuel s numbytes st).1 = Ok (Some data) →
  (numbytes ≤ length data ≤ 2 * numbytes - 1)%nat.
Proof.
  unfold readexactly, mbind, ST_bind.
  destruct (recv s numbytes st) as [[d|e] st1] eqn:Hrecv; [|done].
  intros Hloop.
  assert (Hd : (length d ≤ numbytes)%nat)
    by (apply (recv_length s numbytes st); by rewrite Hrecv).
  assert (Hn : (numbytes ≤ length data ≤ 2 * numbytes - 1)%nat ∨ numbytes = 0%nat).
  { destruct numbytes as [|n]; [by right|]. left.
    apply (readexactly_loop_length fuel s (S n) d st1 data Hloop). lia. }
  destruct Hn as [Hn| ->]; [done|].
  destruct d; [|simpl in Hd; lia].
  destruct fuel; simpl in Hloop; simplify_eq/=; lia.
Qed.

Lemma readexactly_length_when_it_returns_witness :
  (readexactly 5 One 2 (accepted [RecvData [2]; RecvData [7; 2]] [] [] [])).1
    = Ok (Some [2; 7; 2]) ∧
  (2 ≤ length [2; 7; 2] ≤ 2 * 2 - 1)%nat.
Proof.
  split; [reflexivity|].
  apply (readexactly_length_when_it_returns 5 One 2
           (accepted [RecvData [2]; RecvData [7; 2]] [] [] []) [2; 7; 2]).
  reflexivity.
Defined.

Lemma sock_set_sock (s : Side) (k : Sock) (st : State) : sock s (set_sock s k st) = k.
Proof. by destruct s. Qed.

Lemma recv_data_step (s : Side) (n : nat) (st : State) (d : bytes) (rest : list RecvOutcome) :
  closed (sock s st) = false → rx (sock s st) = RecvData d :: rest →
  ∃ d' st1,
    recv s n st = (Ok d', st1) ∧
    closed (sock s st1) = false ∧
    d' ++ stream_bytes (rx (sock s st1)) = d ++ stream_bytes rest ∧
    (rx (sock s st1) = rest ∨
     (length d' = n ∧ ∃ d2, rx (sock s st1) = RecvData d2 :: rest)).
Proof.
  intros Hopen Hrx. unfold recv. rewrite Hopen, Hrx.
  case_bool_decide as Hlen; simpl; eexists _, _; (split; [reflexivity|]);
    rewrite sock_emit, sock_set_sock; simpl.
  - split_and!; [done|done|by left].
  - split_and!; [done| |right].
    + by rewrite app_assoc, take_drop.
    + split; [rewrite length_take; lia|by eexists].
Qed.

Lemma readexactly_loop_full (fuel : nat) (s : Side) (n : nat) (acc : bytes) (st : State) :
  (n ≤ length acc)%nat → readexactly_loop fuel s n acc st = (Ok (Some acc), st).
Proof. intros Hn. destruct fuel; simpl; by rewrite bool_decide_eq_false_2 by lia. Qed.

Lemma readexactly_loop_on_data (fuel : nat) (s : Side) (n : nat) :
  ∀ (acc : bytes) (st : State),
    closed (sock s st) = false →
    forallb is_data (rx (sock s st)) = true →
    (n ≤ length acc + length (stream_bytes (rx (sock s st))))%nat →
    (length (rx (sock s st)) ≤ fuel)%nat →
    ∃ data st',
      readexactly_loop fuel s n acc st = (Ok (Some data), st') ∧
      data ++ stream_bytes (rx (sock s st')) = acc ++ stream_bytes (rx (sock s st)).
Proof.
  induction fuel as [|fuel IH]; intros acc st Hopen Hdata Hn Hfuel.
  - destruct (rx (sock s st)) as [|o rest] eqn:Hrx; [|simpl in Hfuel; lia].
    simpl in Hn. exists acc, st. rewrite readexactly_loop_full by lia. by rewrite Hrx.
  - destruct (decide (n ≤ length acc)%nat) as [Hfull|Hshort].
    { exists acc, st. by rewrite readexactly_loop_full. }
    destruct (rx (sock s st)) as [|[d|] rest] eqn:Hrx; simpl in Hn, Hdata, Hfuel;
      [lia| |done].
    destruct (recv_data_step s n st d rest Hopen Hrx)
      as (d' & st1 & Hrecv & Hopen1 & Hbytes & Hrx1).
    simpl. rewrite bool_decide_eq_true_2 by lia.
    unfold mbind, ST_bind. rewrite Hrecv.
    assert (Hnext : ∃ data st',
      readexactly_loop fuel s n (acc ++ d') st1 = (Ok (Some data), st') ∧
      data ++ stream_bytes (rx (sock s st')) = (acc ++ d') ++ stream_bytes (rx (sock s st1))).
    { destruct Hrx1 as [Hrest|(Hlen & d2 & Hsplit)].
      - apply IH; [done|by rewrite Hrest|..].
        + rewrite Hrest in *. rewrite length_app in *.
          apply (f_equal length) in Hbytes. rewrite !length_app in Hbytes. lia.
        + rewrite Hrest. lia.
      - exists (acc ++ d'), st1. rewrite readexactly_loop_full; [done|].
        rewrite length_app. lia. }
    destruct Hnext as (data & st' & -> & Hconserve).
    exists data, st'. split; [done|].
    by rewrite Hconserve, <- !app_assoc, Hbytes.
Qed.

(** X4: On an open socket whose stream holds at least [numbytes] bytes and on
    which no [recv] fails, [readexactly] returns once it has gone through the
    chunks: the bytes it returns followed by the bytes left on the socket are
    the stream, in order, with nothing lost. *)
Theorem readexactly_returns_what_the_stream_holds (fuel : nat) (s : Side)
    (numbytes : nat) (st : State) :
  closed (sock s st) = false →
  forallb is_data (rx (sock s st)) = true →
  (numbytes ≤ length (stream_bytes (rx (sock s st))))%nat →
  (length (rx (sock s st)) ≤ fuel)%nat →
  ∃ data st',
    readexactly fuel s numbytes st = (Ok (Some data), st') ∧
    data ++ stream_bytes (rx (sock s st')) = stream_bytes (rx (sock s st)).
Proof.
  intros Hopen Hdata Hn Hfuel.
  unfold readexactly, mbind, ST_bind.
  destruct (rx (sock s st)) as [|[d|] rest] eqn:Hrx; simpl in Hn, Hdata, Hfuel; [|
    |done].
  - assert (Hrecv : recv s numbytes st
      = (Ok [], emit (EvRecv s (Ok [])) (set_sock s (sock s st) st))).
    { unfold recv. by rewrite Hopen, Hrx. }
    rewrite Hrecv. rewrite readexactly_loop_full by (simpl; lia).
    exists [], (emit (EvRecv s (Ok [])) (set_sock s (sock s st) st)).
    split; [done|]. by rewrite sock_emit, sock_set_sock, Hrx.
  - destruct (recv_data_step s numbytes st d rest Hopen Hrx)
      as (d' & st1 & Hrecv & Hopen1 & Hbytes & Hrx1).
    rewrite Hrecv.
    assert (Hnext : ∃ data st',
      readexactly_loop fuel s numbytes d' st1 = (Ok (Some data), st') ∧
      data ++ stream_bytes (rx (sock s st')) = d' ++ stream_bytes (rx (sock s st1))).
    { destruct Hrx1 as [Hrest|(Hlen & d2 & Hsplit)].
      - apply readexactly_loop_on_data; [done|by rewrite Hrest|..].
        + rewrite Hrest in *.
          apply (f_equal length) in Hbytes. rewrite !length_app in *. lia.
        + rewrite Hrest. lia.
      - exists d', st1. rewrite readexactly_loop_full; [done|lia]. }
    destruct Hnext as (data & st' & -> & Hconserve).
    exists data, st'. split; [done|]. by rewrite Hconserve, Hbytes.
Qed.

Lemma readexactly_returns_what_the_stream_holds_witness :
  let st := accepted [RecvData [2]; RecvData [7]; RecvData [3; 0]] [] [] [] in
  ∃ data st',
    readexactly 3 One 2 st = (Ok (Some data), st') ∧
    data ++ stream_bytes (rx (sock One st')) = [2; 7; 3; 0].
Proof.
  intros st.
  apply (readexactly_returns_what_the_stream_holds 3 One 2 st).
  - reflexivity.
  - reflexivity.
  - simpl. lia.
  - simpl. lia.
Defined.

(** ** kill_game *)

(** X5: After [kill_game] both connections are closed and stay unusable: every
    later [recv] and [sendall] on either of them raises [OSError], whatever
    the peer has sent or would accept; the scripts of the peers are not
    consumed by it. *)
Theorem kill_game_leaves_connections_unusable (st : State) (s : Side) (n : nat)
    (data : bytes) :
  let st' := (kill_game (One, Two) st).2 in
  (kill_game (One, Two) st).1 = Ok () ∧
  closed (sock s st') = true ∧
  rx (sock s st') = rx (sock s st) ∧ tx (sock s st') = tx (sock s st) ∧
  (recv s n st').1 = Raise OSError ∧
  (sendall s data st').1 = Raise OSError ∧
  trace (sendall s data st').2
    = trace st ++ [EvClose One; EvClose Two; EvSendall s data (Raise OSError)].
Proof.
  destruct st as [k1 k2 tr fr]. unfold kill_game, close, recv, sendall. st_unfold.
  destruct s; simpl; rewrite <- !app_assoc; by split_and!.
Qed.

(** ** Closing, in every session *)

(** X6: In every session, however it ends, [close] is called on the two
    connections the same number of times: once for every error the session
    logged, and once more if it ends at the [return] after a failed check.  A
    connection is closed at the end exactly when [close] was called on it. *)
Theorem session_close_calls (rng : nat → nat)
    (rx1 : list RecvOutcome) (tx1 : list bool) (rx2 : list RecvOutcome) (tx2 : list bool) :
  let r := handle_game_clients rng (accepted rx1 tx1 rx2 tx2) in
  let extra := match r.1 with Ok e => exit_closes e | Raise _ => 0%nat end in
  close_calls One (trace r.2) = (errors_logged (trace r.2) + extra)%nat ∧
  close_calls Two (trace r.2) = close_calls One (trace r.2) ∧
  closed (sock_one r.2) = bool_decide (0 < close_calls One (trace r.2))%nat ∧
  closed (sock_two r.2) = closed (sock_one r.2).
Proof.
  intros r extra.
  destruct (tracks_handle_game_clients rng (accepted rx1 tx1 rx2 tx2))
    as (t & Htr & [Hc1 Hc2] & Hcl).
  fold r in Htr, Hc1, Hc2, Hcl. simpl in Htr. subst t. fold extra in Hc1, Hc2.
  pose proof (Hcl One) as Hcl1. pose proof (Hcl Two) as Hcl2. simpl in Hcl1, Hcl2.
  rewrite Hcl1, Hcl2, Hc2, Hc1. by split_and!.
Qed.

(** ** A failure while waiting for the WANTGAME messages *)

Lemma handle_game_clients_recv_one_fails (rng : nat → nat) (st : State) (st1 : State) (e : exn) :
  recv One byte_buffer st = (Raise e, st1) →
  handle_game_clients rng st = (Raise e, st1).
Proof.
  intros Hrecv. unfold handle_game_clients.
  unfold mbind at 1. unfold ST_bind at 1. by rewrite Hrecv.
Qed.

Lemma handle_game_clients_recv_two_fails (rng : nat → nat) (st st1 st2 : State)
    (d : bytes) (e : exn) :
  recv One byte_buffer st = (Ok d, st1) →
  recv Two byte_buffer (set_frame (set_player_one_data d (frame st1)) st1) = (Raise e, st2) →
  handle_game_clients rng st = (Raise e, st2).
Proof.
  intros Hrecv1 Hrecv2. unfold handle_game_clients.
  unfold mbind at 1. unfold ST_bind at 1. rewrite Hrecv1.
  unfold mbind at 1. unfold ST_bind at 1. unfold store at 1.
  unfold mbind at 1. unfold ST_bind at 1. by rewrite Hrecv2.
Qed.

(** X7: When the first [recv] on player one fails, or the first [recv] on player
    two fails after player one's message was read, the exception leaves
    [handle_game_clients]: nothing is sent and neither connection is
    closed. *)
Theorem wantgame_recv_failure_escapes (rng : nat → nat)
    (rx1 : list RecvOutcome) (tx1 : list bool) (rx2 : list RecvOutcome) (tx2 : list bool) :
  let st0 := accepted rx1 tx1 rx2 tx2 in
  head rx1 = Some RecvError ∨ (head rx1 ≠ Some RecvError ∧ head rx2 = Some RecvError) →
  let r := handle_game_clients rng st0 in
  r.1 = Raise OSError ∧
  close_calls One (trace r.2) = 0%nat ∧ close_calls Two (trace r.2) = 0%nat ∧
  sendall_calls One (trace r.2) = [] ∧ sendall_calls Two (trace r.2) = [] ∧
  closed (sock_one r.2) = false ∧ closed (sock_two r.2) = false.
Proof.
  intros st0 Hfail r. subst r st0.
  destruct Hfail as [Hf|[Hf1 Hf2]].
  - destruct rx1 as [|[d1|] rx1]; [done|done|].
    erewrite handle_game_clients_recv_one_fails by reflexivity. by split_and!.
  - destruct rx2 as [|[d2|] rx2]; [done|done|].
    destruct rx1 as [|[d1|] rx1]; [| |done].
    + erewrite handle_game_clients_recv_two_fails by reflexivity. by split_and!.
    + destruct (decide (length d1 ≤ byte_buffer)%nat) as [Hlen|Hlen].
      * erewrite handle_game_clients_recv_two_fails;
          [|unfold recv, accepted; simpl; by rewrite bool_decide_eq_true_2|reflexivity].
        by split_and!.
      * erewrite handle_game_clients_recv_two_fails;
          [|unfold recv, accepted; simpl; by rewrite bool_decide_eq_false_2|reflexivity].
        by split_and!.
Qed.

Lemma wantgame_recv_failure_escapes_witness :
  let r := handle_game_clients zero_rng (accepted [RecvData [0; 0]] [] [RecvError] []) in
  r.1 = Raise OSError ∧
  trace r.2 = [EvRecv One (Ok [0; 0]); EvRecv Two (Raise OSError)] ∧
  closed (sock_one r.2) = false ∧ closed (sock_two r.2) = false.
Proof.
  intros r.
  destruct (wantgame_recv_failure_escapes zero_rng [RecvData [0; 0]] [] [RecvError] [])
    as (Hret & _ & _ & _ & _ & Hc1 & Hc2).
  - right. split; [discriminate|reflexivity].
  - split; [exact Hret|]. split; [reflexivity|]. by split.
Defined.

(** ** Invariants of sessions *)

Lemma keeps_ret {A} (I : State → Prop) (a : A) : keeps I (mret a).
Proof. by intros st. Qed.

Lemma keeps_bind {A B} (I : State → Prop) (m : ST State A) (k : A → ST State B) :
  keeps I m → (∀ a, keeps I (k a)) → keeps I (m ≫= k).
Proof.
  intros Hm Hk st HI. specialize (Hm st HI). unfold mbind, ST_bind.
  destruct (m st) as [[a|e] st1]; simpl in *; [by apply Hk|done].
Qed.

Lemma keeps_try_except {A} (I : State → Prop) (body handler : ST State A) (cls : exn) :
  keeps I body → keeps I handler → keeps I (try_except body cls handler).
Proof.
  intros Hb Hh st HI. specialize (Hb st HI). unfold try_except.
  destruct (body st) as [[a|e] st1]; simpl in *; [done|].
  destruct (isinstance e cls); [by apply Hh|done].
Qed.

Lemma keeps_for_range (I : State → Prop) (range : list Z) (body : Z → ST State ctrl) :
  (∀ i, keeps I (body i)) → keeps I (for_range range body).
Proof.
  intros Hbody. induction range as [|i range IH]; simpl; [apply keeps_ret|].
  apply keeps_bind; [done|]. intros [|e]; [done|apply keeps_ret].
Qed.

Lemma keeps_lift_res {A} (I : State → Prop) (r : res A) : keeps I (lift_res r).
Proof. by intros st. Qed.

Lemma keeps_load (I : State → Prop) (v : Frame → option (list Z)) : keeps I (load v).
Proof. intros st HI. unfold load. by destruct (v (frame st)). Qed.

(** *** No input or output succeeds after a close *)

Lemma io_scan_snoc (s : Side) (t : list Event) (e : Event) :
  io_scan s (t ++ [e]) = io_step s (io_scan s t) e.
Proof. unfold io_scan. by rewrite fold_left_app. Qed.

Lemma io_in_order_store (s : Side) (upd : Frame → Frame) : keeps (io_in_order s) (store upd).
Proof. intros st HI. unfold io_in_order, store in *. simpl. by destruct s. Qed.

Lemma io_in_order_logging (s : Side) (l : Level) (m : string) (a : list LogArg) :
  keeps (io_in_order s) (logging l m a).
Proof.
  intros st HI. unfold io_in_order, logging, emit in *. simpl.
  rewrite io_scan_snoc. replace (sock s _) with (sock s st) by (by destruct s).
  by rewrite HI.
Qed.

Lemma io_in_order_recv (s s' : Side) (n : nat) : keeps (io_in_order s) (recv s' n).
Proof.
  intros st HI. unfold io_in_order in *. unfold recv. simpl.
  rewrite trace_set_sock, io_scan_snoc, HI, sock_emit.
  destruct (decide (s' = s)) as [->|Hne].
  - rewrite sock_set_sock. unfold io_step, is_close, is_success_on.
    destruct (closed (sock s st)) eqn:Hc; simpl; [by rewrite Hc|].
    destruct (rx (sock s st)) as [|[d|] rest]; simpl; rewrite ?andb_false_r, ?Hc; try done.
    case_bool_decide; simpl; by rewrite ?andb_false_r.
  - replace (sock s (set_sock s' _ st)) with (sock s st) by (by destruct s, s').
    unfold io_step, is_close, is_success_on.
    destruct (_ : res bytes); simpl; by rewrite ?bool_decide_eq_false_2.
Qed.

Lemma io_in_order_sendall (s s' : Side) (data : bytes) :
  keeps (io_in_order s) (sendall s' data).
Proof.
  intros st HI. unfold io_in_order in *. unfold sendall. simpl.
  rewrite trace_set_sock, io_scan_snoc, HI, sock_emit.
  destruct (decide (s' = s)) as [->|Hne].
  - rewrite sock_set_sock. unfold io_step, is_close, is_success_on.
    destruct (closed (sock s st)) eqn:Hc; simpl; [by rewrite Hc|].
    destruct (tx (sock s st)) as [|[] rest]; simpl; by rewrite ?andb_false_r, ?Hc.
  - replace (sock s (set_sock s' _ st)) with (sock s st) by (by destruct s, s').
    unfold io_step, is_close, is_success_on.
    destruct (_ : res unit); simpl; by rewrite ?bool_decide_eq_false_2.
Qed.

Lemma io_in_order_close (s s' : Side) : keeps (io_in_order s) (close s').
Proof.
  intros st HI. unfold io_in_order in *. unfold close. simpl.
  rewrite trace_set_sock, io_scan_snoc, HI, sock_emit.
  destruct (decide (s' = s)) as [->|Hne].
  - rewrite sock_set_sock. unfold io_step, is_close. simpl.
    by rewrite bool_decide_eq_true_2.
  - replace (sock s (set_sock s' _ st)) with (sock s st) by (by destruct s, s').
    unfold io_step, is_close, is_success_on. simpl.
    by rewrite bool_decide_eq_false_2.
Qed.

Lemma io_in_order_kill_game (s : Side) (g : Side * Side) :
  keeps (io_in_order s) (kill_game g).
Proof.
  unfold kill_game. repeat (apply keeps_bind; [apply io_in_order_close|intros ?]).
  apply keeps_ret.
Qed.

Ltac keeps_io :=
  repeat match goal with
    | |- keeps _ (mret _) => apply keeps_ret
    | |- keeps _ (lift_res _) => apply keeps_lift_res
    | |- keeps _ (load _) => apply keeps_load
    | |- keeps _ (store _) => apply io_in_order_store
    | |- keeps _ (logging _ _ _) => apply io_in_order_logging
    | |- keeps _ (recv _ _) => apply io_in_order_recv
    | |- keeps _ (sendall _ _) => apply io_in_order_sendall
    | |- keeps _ (kill_game _) => apply io_in_order_kill_game
    | |- keeps _ (try_except _ _ _) => apply keeps_try_except
    | |- keeps _ (_ ≫= _) => apply keeps_bind; [|intros ?]
    | |- keeps _ (if bool_decide _ then _ else _) => case_bool_decide
    end.

Lemma io_in_order_round (s : Side) (i : Z) : keeps (io_in_order s) (round i).
Proof. unfold round. keeps_io. Qed.

Lemma io_in_order_handle_game_clients (s : Side) (rng : nat → nat) :
  keeps (io_in_order s) (handle_game_clients rng).
Proof.
  unfold handle_game_clients.
  do 6 (apply keeps_bind; [keeps_io|intros ?]).
  destruct (_ || _); [keeps_io|].
  do 3 (apply keeps_bind; [keeps_io|intros ?]).
  apply keeps_bind; [apply keeps_for_range, io_in_order_round|].
  intros [|e]; apply keeps_ret.
Qed.

Lemma io_step_None (s : Side) (t : list Event) : fold_left (io_step s) t None = None.
Proof. by induction t. Qed.

Lemma io_scan_closed (s : Side) (t : list Event) :
  ∀ c0 c, fold_left (io_step s) t (Some c0) = Some c →
    c = c0 || bool_decide (0 < close_calls s t)%nat.
Proof.
  induction t as [|e t IH]; intros c0 c; simpl.
  - intros [= <-]. by rewrite orb_false_r.
  - unfold close_calls. rewrite filter_cons.
    destruct (is_close s e) eqn:Hcl; simpl.
    + intros Hrest. rewrite (IH _ _ Hrest). simpl. by rewrite orb_true_r.
    + destruct (is_success_on s e && c0); [by rewrite io_step_None|].
      intros Hrest. by rewrite (IH _ _ Hrest).
Qed.

Lemma io_scan_success (s : Side) (t1 t2 : list Event) (e : Event) (c : bool) :
  io_scan s (t1 ++ e :: t2) = Some c → is_success_on s e = true →
  close_calls s t1 = 0%nat.
Proof.
  unfold io_scan. rewrite fold_left_app. simpl.
  destruct (fold_left (io_step s) t1 (Some false)) as [c1|] eqn:Hscan1;
    [|by rewrite io_step_None].
  pose proof (io_scan_closed s t1 false c1 Hscan1) as Hc1. simpl in Hc1.
  intros Hscan Hsucc.
  assert (Hnc : is_close s e = false) by (by destruct e).
  replace (io_step s (Some c1) e) with (if c1 then None else Some false) in Hscan
    by (unfold io_step; rewrite Hnc, Hsucc; by destruct c1).
  destruct c1; [by rewrite io_step_None in Hscan|].
  symmetry in Hc1. apply bool_decide_eq_false in Hc1. lia.
Qed.

(** X8: In every session, once [close] has been called on a connection, no [recv]
    on it returns and no [sendall] on it delivers: every message the session
    received or delivered on a connection came before its first [close]. *)
Theorem no_io_succeeds_after_close (rng : nat → nat)
    (rx1 : list RecvOutcome) (tx1 : list bool) (rx2 : list RecvOutcome) (tx2 : list bool)
    (s : Side) (t1 t2 : list Event) (e : Event) :
  trace (handle_game_clients rng (accepted rx1 tx1 rx2 tx2)).2 = t1 ++ e :: t2 →
  is_success_on s e = true →
  close_calls s t1 = 0%nat.
Proof.
  intros Htrace Hsucc.
  assert (Hinit : io_in_order s (accepted rx1 tx1 rx2 tx2)) by (by destruct s).
  apply (io_in_order_handle_game_clients s rng) in Hinit.
  unfold io_in_order in Hinit. rewrite Htrace in Hinit.
  by apply (io_scan_success s t1 t2 e _ Hinit).
Qed.

Lemma no_io_succeeds_after_close_witness :
  trace (handle_game_clients zero_rng
           (accepted [RecvData [0; 0]] [] [RecvData [0; 0]] [true; false])).2
  = [EvRecv One (Ok [0; 0]); EvRecv Two (Ok [0; 0])]
    ++ EvSendall One (1 :: seqZ 1 26) (Ok ())
    :: [ EvSendall Two (1 :: seqZ 27 25 ++ [0]) (Ok ());
         EvLog (mkLog DEBUG "Successfully sent cards to both players" []);
         EvRecv One (Ok []); EvRecv Two (Ok []);
         EvLog (mkLog ERROR "Struct Exception Occured during game" []);
         EvClose One; EvClose Two; EvClose One; EvClose Two ] ∧
  close_calls One [EvRecv One (Ok [0; 0]); EvRecv Two (Ok [0; 0])] = 0%nat.
Proof.
  assert (Htrace : trace (handle_game_clients zero_rng
           (accepted [RecvData [0; 0]] [] [RecvData [0; 0]] [true; false])).2
    = [EvRecv One (Ok [0; 0]); EvRecv Two (Ok [0; 0])]
      ++ EvSendall One (1 :: seqZ 1 26) (Ok ())
      :: [ EvSendall Two (1 :: seqZ 27 25 ++ [0]) (Ok ());
           EvLog (mkLog DEBUG "Successfully sent cards to both players" []);
           EvRecv One (Ok []); EvRecv Two (Ok []);
           EvLog (mkLog ERROR "Struct Exception Occured during game" []);
           EvClose One; EvClose Two; EvClose One; EvClose Two ]) by (vm_compute; reflexivity).
  split; [exact Htrace|].
  apply (no_io_succeeds_after_close zero_rng [RecvData [0; 0]] [] [RecvData [0; 0]]
           [true; false] One _ _ _ Htrace).
  reflexivity.
Defined.

(** ** How much a session can do *)

Section counting.
Context (p : Event → bool).

Lemma counts_app (t1 t2 : list Event) :
  counts p (t1 ++ t2) = (counts p t1 + counts p t2)%nat.
Proof. unfold counts. by rewrite filter_app, length_app. Qed.

Lemma counts_one (e : Event) : counts p [e] = if p e then 1%nat else 0%nat.
Proof. unfold counts. rewrite filter_cons. by destruct (p e). Qed.

Lemma adds_weaken {A} (m : ST State A) (k k' : nat) :
  adds_at_most p m k → (k ≤ k')%nat → adds_at_most p m k'.
Proof. intros Hm Hk st. destruct (Hm st) as (t & Ht & Hc). exists t. split; [done|lia]. Qed.

Lemma adds_ret {A} (a : A) : adds_at_most p (mret a) 0.
Proof. intros st. exists []. by rewrite app_nil_r. Qed.

Lemma adds_silent {A} (m : ST State A) :
  (∀ st, trace (m st).2 = trace st) → adds_at_most p m 0.
Proof. intros Hm st. exists []. by rewrite app_nil_r, Hm. Qed.

Lemma adds_event {A} (m : ST State A) (k : nat) :
  (∀ st, ∃ e, trace (m st).2 = trace st ++ [e] ∧ ((if p e then 1 else 0) ≤ k)%nat) →
  adds_at_most p m k.
Proof.
  intros Hm st. destruct (Hm st) as (e & Ht & Hk). exists [e].
  split; [done|]. by rewrite counts_one.
Qed.

Lemma adds_bind {A B} (m : ST State A) (f : A → ST State B) (k1 k2 : nat) :
  adds_at_most p m k1 → (∀ a, adds_at_most p (f a) k2) →
  adds_at_most p (m ≫= f) (k1 + k2).
Proof.
  intros Hm Hf st. destruct (Hm st) as (t1 & Ht1 & Hc1).
  unfold mbind, ST_bind. destruct (m st) as [[a|e] st1]; simpl in *.
  - destruct (Hf a st1) as (t2 & Ht2 & Hc2). exists (t1 ++ t2).
    rewrite Ht2, Ht1, app_assoc, counts_app. split; [done|lia].
  - exists t1. split; [done|lia].
Qed.

Lemma adds_try_except {A} (body handler : ST State A) (cls : exn) (k1 k2 : nat) :
  adds_at_most p body k1 → adds_at_most p handler k2 →
  adds_at_most p (try_except body cls handler) (k1 + k2).
Proof.
  intros Hb Hh st. destruct (Hb st) as (t1 & Ht1 & Hc1).
  unfold try_except. destruct (body st) as [[a|e] st1]; simpl in *.
  - exists t1. split; [done|lia].
  - destruct (isinstance e cls).
    + destruct (Hh st1) as (t2 & Ht2 & Hc2). exists (t1 ++ t2).
      rewrite Ht2, Ht1, app_assoc, counts_app. split; [done|lia].
    + exists t1. split; [done|lia].
Qed.

Lemma adds_if {A} (b : bool) (m1 m2 : ST State A) (k1 k2 : nat) :
  adds_at_most p m1 k1 → adds_at_most p m2 k2 →
  adds_at_most p (if b then m1 else m2) (k1 `max` k2).
Proof. intros H1 H2. destruct b; eapply adds_weaken; eauto; lia. Qed.

Lemma adds_for_range (range : list Z) (body : Z → ST State ctrl) (k : nat) :
  (∀ i, adds_at_most p (body i) k) →
  adds_at_most p (for_range range body) (length range * k).
Proof.
  intros Hbody. induction range as [|i range IH]; simpl; [apply adds_ret|].
  apply adds_bind; [done|]. intros [|e]; [done|].
  eapply adds_weaken; [apply adds_ret|lia].
Qed.

Lemma adds_lift_res {A} (r : res A) : adds_at_most p (lift_res r) 0.
Proof. by apply adds_silent. Qed.

Lemma adds_load (v : Frame → option (list Z)) : adds_at_most p (load v) 0.
Proof. apply adds_silent. intros st. unfold load. by destruct (v (frame st)). Qed.

Lemma adds_store (upd : Frame → Frame) : adds_at_most p (store upd) 0.
Proof. by apply adds_silent. Qed.

Lemma adds_recv (s : Side) (n k : nat) :
  (∀ r, ((if p (EvRecv s r) then 1 else 0) ≤ k)%nat) → adds_at_most p (recv s n) k.
Proof.
  intros Hk. apply adds_event. intros st. eexists. unfold recv. simpl.
  rewrite trace_set_sock. split; [reflexivity|apply Hk].
Qed.

Lemma adds_sendall (s : Side) (data : bytes) (k : nat) :
  (∀ r, ((if p (EvSendall s data r) then 1 else 0) ≤ k)%nat) →
  adds_at_most p (sendall s data) k.
Proof.
  intros Hk. apply adds_event. intros st. eexists. unfold sendall. simpl.
  rewrite trace_set_sock. split; [reflexivity|apply Hk].
Qed.

Lemma adds_logging (l : Level) (m : string) (a : list LogArg) (k : nat) :
  ((if p (EvLog (mkLog l m a)) then 1 else 0) ≤ k)%nat →
  adds_at_most p (logging l m a) k.
Proof. intros Hk. apply adds_event. intros st. eexists. split; [reflexivity|done]. Qed.

Lemma adds_kill_game (g : Side * Side) :
  (∀ s, p (EvClose s) = false) → adds_at_most p (kill_game g) 0.
Proof.
  intros Hp st. destruct g as [s1 s2]. exists [EvClose s1; EvClose s2].
  unfold kill_game, close. st_unfold. split.
  - destruct s1, s2; simpl; by rewrite <- app_assoc.
  - unfold counts. rewrite !filter_cons, !Hp. simpl. lia.
Qed.
End counting.

(** Builds a bound for a computation from the bounds of its parts; the events
    that cannot count are given the bound 0. *)
Ltac adds_build :=
  match goal with
  | |- adds_at_most _ (mret _) _ => apply adds_ret
  | |- adds_at_most _ (lift_res _) _ => apply adds_lift_res
  | |- adds_at_most _ (load _) _ => apply adds_load
  | |- adds_at_most _ (store _) _ => apply adds_store
  | |- adds_at_most _ (kill_game _) _ => apply adds_kill_game; by intros []
  | |- adds_at_most _ (recv _ _) _ =>
      first [apply (adds_recv _ _ _ 0); intros []; simpl; lia
            |apply (adds_recv _ _ _ 1); intros []; simpl; lia]
  | |- adds_at_most _ (sendall _ _) _ =>
      first [apply (adds_sendall _ _ _ 0); intros []; simpl; lia
            |apply (adds_sendall _ _ _ 1); intros []; simpl; lia]
  | |- adds_at_most _ (logging _ _ _) _ =>
      first [apply (adds_logging _ _ _ _ 0); simpl; lia
            |apply (adds_logging _ _ _ _ 1); simpl; lia]
  | |- adds_at_most _ (try_except _ _ _) _ => eapply adds_try_except; adds_build
  | |- adds_at_most _ (_ ≫= _) _ => eapply adds_bind; [adds_build|intros ?; adds_build]
  | |- adds_at_most _ (if _ then _ else _) _ => eapply adds_if; adds_build
  end.

Lemma round_adds_at_most_one (p : Event → bool) (i : Z) :
  (∃ s, p = is_sendall_on s) ∨ (∃ s, p = is_recv_on s) ∨ p = is_round_end →
  adds_at_most p (round i) 1.
Proof.
  intros [[[] ->]|[[[] ->]| ->]]; unfold round;
    (eapply adds_weaken; [adds_build|simpl; lia]).
Qed.

Ltac adds_build_session :=
  match goal with
  | |- adds_at_most _ (for_range _ round) _ =>
      apply adds_for_range; intros ?; apply round_adds_at_most_one;
      first [by left; eexists|by right; left; eexists|by right; right]
  | |- adds_at_most _ (match ?c with Next => _ | Return _ => _ end) _ =>
      destruct c; apply adds_ret
  | |- adds_at_most _ (_ ≫= _) _ =>
      eapply adds_bind; [adds_build_session|intros ?; adds_build_session]
  | |- adds_at_most _ (if _ then _ else _) _ => eapply adds_if; adds_build_session
  | |- _ => adds_build
  end.

Lemma handle_game_clients_adds_io (p : Event → bool) (rng : nat → nat) :
  (∃ s, p = is_sendall_on s) ∨ (∃ s, p = is_recv_on s) →
  adds_at_most p (handle_game_clients rng) 27.
Proof.
  intros [[[] ->]|[[] ->]]; unfold handle_game_clients;
    (eapply adds_weaken; [adds_build_session|vm_compute; lia]).
Qed.

Lemma handle_game_clients_adds_rounds (rng : nat → nat) :
  adds_at_most is_round_end (handle_game_clients rng) 26.
Proof.
  unfold handle_game_clients.
  eapply adds_weaken; [adds_build_session|vm_compute; lia].
Qed.

(** X9: A session calls [recv] at most 27 times and [sendall] at most 27 times on
    each connection, and ends at most 26 rounds, whatever the peers do. *)
Theorem session_does_at_most_26_rounds (rng : nat → nat)
    (rx1 : list RecvOutcome) (tx1 : list bool) (rx2 : list RecvOutcome) (tx2 : list bool)
    (s : Side) :
  let t := trace (handle_game_clients rng (accepted rx1 tx1 rx2 tx2)).2 in
  (counts (is_recv_on s) t ≤ 27)%nat ∧
  (counts (is_sendall_on s) t ≤ 27)%nat ∧
  (counts is_round_end t ≤ 26)%nat.
Proof.
  intros t. subst t. split_and!.
  - destruct (handle_game_clients_adds_io (is_recv_on s) rng
                (or_intror (ex_intro _ s eq_refl)) (accepted rx1 tx1 rx2 tx2))
      as (t & -> & Hc). done.
  - destruct (handle_game_clients_adds_io (is_sendall_on s) rng
                (or_introl (ex_intro _ s eq_refl)) (accepted rx1 tx1 rx2 tx2))
      as (t & -> & Hc). done.
  - destruct (handle_game_clients_adds_rounds rng (accepted rx1 tx1 rx2 tx2))
      as (t & -> & Hc). done.
Qed.

(** ** A game in which nothing fails *)

Lemma pack_results_round_results (c1 c2 : Z) :
  pack_results (compare_cards c1 c2)
  = Ok (result_msg (round_results c1 c2).1, result_msg (round_results c1 c2).2).
Proof.
  unfold round_results.
  destruct (compare_cards_cases c1 c2) as [[H ->]|[[H ->]|[H ->]]].
  - by rewrite (proj2 (Z.ltb_lt _ _)) by lia.
  - by rewrite !(proj2 (Z.ltb_ge _ _)) by lia.
  - rewrite (proj2 (Z.ltb_ge _ _)) by lia. by rewrite (proj2 (Z.ltb_lt _ _)) by lia.
Qed.

Lemma round_on_play_cards (i c1 c2 : Z) (rest1 rest2 : list RecvOutcome)
    (tx1 tx2 : list bool) (tr : list Event) (fr : Frame) :
  head tx1 ≠ Some false → head tx2 ≠ Some false →
  ∃ fr',
    round i (mkState (mkSock (RecvData [Command_value PLAYCARD; c1] :: rest1) tx1 false)
                     (mkSock (RecvData [Command_value PLAYCARD; c2] :: rest2) tx2 false)
                     tr fr)
    = (Ok Next,
       mkState (mkSock rest1 (tail tx1) false) (mkSock rest2 (tail tx2) false)
               (tr ++ round_events i (c1, c2)) fr').
Proof.
  intros Htx1 Htx2. eexists.
  unfold round. lazy -[compare_cards pack_results app round_results result_msg round_events].
  rewrite pack_results_round_results.
  destruct tx1 as [|[] tx1]; [| |by destruct Htx1];
    (destruct tx2 as [|[] tx2]; [| |by destruct Htx2]);
    lazy -[app round_results]; rewrite <- !app_assoc; reflexivity.
Qed.

Lemma no_false_head (tx : list bool) : false ∉ tx → head tx ≠ Some false.
Proof. destruct tx as [|[] tx]; simpl; [done..|]. intros Hin _. apply Hin. left. Qed.

Lemma no_false_tail (tx : list bool) : false ∉ tx → false ∉ tail tx.
Proof. destruct tx as [|b tx]; simpl; [done|]. intros Hin Ht. apply Hin. by right. Qed.

Lemma rounds_on_play_cards (range : list Z) :
  ∀ (cards : list (Z * Z)) (rest1 rest2 : list RecvOutcome) (tx1 tx2 : list bool)
    (tr : list Event) (fr : Frame),
    length cards = length range → false ∉ tx1 → false ∉ tx2 →
    ∃ fr' tx1' tx2',
      for_range range round
        (mkState (mkSock (plays cards.*1 ++ rest1) tx1 false)
                 (mkSock (plays cards.*2 ++ rest2) tx2 false) tr fr)
      = (Ok Next,
         mkState (mkSock rest1 tx1' false) (mkSock rest2 tx2' false)
                 (tr ++ rounds_events range cards) fr').
Proof.
  induction range as [|i range IH]; intros cards rest1 rest2 tx1 tx2 tr fr Hlen Htx1 Htx2.
  - destruct cards; [|done]. exists fr, tx1, tx2. simpl.
    unfold rounds_events. simpl. by rewrite app_nil_r.
  - destruct cards as [|[c1 c2] cards]; [done|]. simpl in Hlen.
    destruct (round_on_play_cards i c1 c2 (plays cards.*1 ++ rest1) (plays cards.*2 ++ rest2)
                tx1 tx2 tr fr (no_false_head _ Htx1) (no_false_head _ Htx2)) as [fr1 Hround].
    destruct (IH cards rest1 rest2 (tail tx1) (tail tx2) (tr ++ round_events i (c1, c2)) fr1)
      as (fr' & tx1' & tx2' & Hrest); [lia|by apply no_false_tail..|].
    exists fr', tx1', tx2'.
    change (for_range (i :: range) round) with
      (c ← round i; match c with Next => for_range range round | Return e => mret (Return e) end).
    unfold mbind, ST_bind.
    change (plays ((c1, c2) :: cards).*1 ++ rest1)
      with (RecvData [Command_value PLAYCARD; c1] :: plays cards.*1 ++ rest1).
    change (plays ((c1, c2) :: cards).*2 ++ rest2)
      with (RecvData [Command_value PLAYCARD; c2] :: plays cards.*2 ++ rest2).
    rewrite Hround, Hrest. unfold rounds_events. simpl. by rewrite <- app_assoc.
Qed.

Lemma deal_cards_Ok (rng : nat → nat) :
  ∃ hand1 hand2 : list Z,
    deal_cards rng = Ok (Command_value GAMESTART :: hand1, Command_value GAMESTART :: hand2) ∧
    length hand1 = 26%nat ∧ length hand2 = 26%nat.
Proof.
  destruct (shuffle_Permutation rng (seqZ 0 52)) as (deck & Hsh & Hperm).
  assert (Hlen : length deck = 52%nat) by (by rewrite Hperm).
  assert (Hbyte : ∀ h, h ⊆ deck → Forall (λ v, 0 ≤ v ≤ 255) (Command_value GAMESTART :: h)).
  { intros h Hsub. constructor; [simpl; lia|].
    apply Forall_forall. intros c Hc. apply Hsub in Hc.
    rewrite Hperm, elem_of_seqZ in Hc. lia. }
  exists (take 26 deck), (drop 26 deck). split_and!.
  - unfold deal_cards. rewrite Hsh. simpl.
    rewrite (struct_pack_B_Ok 27 (1 :: take 26 deck)).
    + simpl. rewrite (struct_pack_B_Ok 27 (1 :: drop 26 deck)); [done|..].
      * simpl. rewrite length_drop. lia.
      * apply (Hbyte (drop 26 deck)). intros c Hc.
        rewrite <- (take_drop 26 deck). apply elem_of_app. by right.
    + simpl. rewrite length_take. lia.
    + apply (Hbyte (take 26 deck)). intros c Hc.
      rewrite <- (take_drop 26 deck). apply elem_of_app. by left.
  - rewrite length_take. lia.
  - rewrite length_drop. lia.
Qed.

Lemma handle_game_clients_after_wantgame (rng : nat → nat) (hands : bytes * bytes)
    (rx1 rx2 : list RecvOutcome) (tx1 tx2 : list bool) :
  deal_cards rng = Ok hands → head tx1 ≠ Some false → head tx2 ≠ Some false →
  handle_game_clients rng (accepted (RecvData [0; 0] :: rx1) tx1 (RecvData [0; 0] :: rx2) tx2)
  = (c ← for_range (seqZ 1 26) round;
     match c with
     | Next => mret ReturnEnd
     | Return e => mret e
     end)
      (mkState (mkSock rx1 (tail tx1) false) (mkSock rx2 (tail tx2) false)
         [ EvRecv One (Ok [0; 0]); EvRecv Two (Ok [0; 0]);
           EvSendall One hands.1 (Ok ()); EvSendall Two hands.2 (Ok ());
           EvLog (mkLog DEBUG "Successfully sent cards to both players" []) ]
         (mkFrame (Some [0; 0]) (Some [0; 0]) None None)).
Proof.
  intros Hdeal Htx1 Htx2. unfold handle_game_clients. rewrite Hdeal.
  remember (for_range (seqZ 1 26) round) as rounds eqn:Hrounds. clear Hrounds.
  destruct tx1 as [|[] tx1]; [| |by destruct Htx1];
    (destruct tx2 as [|[] tx2]; [| |by destruct Htx2]); reflexivity.
Qed.

Lemma delivered_app (s : Side) (t1 t2 : list Event) :
  delivered s (t1 ++ t2) = delivered s t1 ++ delivered s t2.
Proof. unfold delivered. apply omap_app. Qed.

Lemma delivered_rounds_events (s : Side) (range : list Z) :
  ∀ cards : list (Z * Z), length cards = length range →
    delivered s (rounds_events range cards) = (λ c, result_msg (side_result s c)) <$> cards.
Proof.
  induction range as [|i range IH]; intros [|c cards] Hlen; try done.
  change (rounds_events (i :: range) (c :: cards))
    with (round_events i c ++ rounds_events range cards).
  rewrite delivered_app, IH, fmap_cons by (simpl in Hlen; lia). by destruct s.
Qed.

(** X10: When both peers ask for a game and then send 26 [PLAYCARD] messages each,
    and every [sendall] delivers, the session deals, plays the 26 rounds and
    returns at the end: each side is sent its hand and then, round by round,
    the result of its card against the other side's (lose and win by the
    ranks, draw on equal ranks), and nothing else happens: no error, no
    [close]. *)
Theorem full_game_session (rng : nat → nat) (cards : list (Z * Z)) (tx1 tx2 : list bool) :
  length cards = 26%nat → false ∉ tx1 → false ∉ tx2 →
  ∃ hand1 hand2 : bytes,
    deal_cards rng = Ok (hand1, hand2) ∧
    let r := handle_game_clients rng
               (accepted (RecvData [0; 0] :: plays cards.*1) tx1
                         (RecvData [0; 0] :: plays cards.*2) tx2) in
    r.1 = Ok ReturnEnd ∧
    trace r.2 =
      [ EvRecv One (Ok [0; 0]); EvRecv Two (Ok [0; 0]);
        EvSendall One hand1 (Ok ()); EvSendall Two hand2 (Ok ());
        EvLog (mkLog DEBUG "Successfully sent cards to both players" []) ]
      ++ rounds_events (seqZ 1 26) cards ∧
    delivered One (trace r.2) = hand1 :: ((λ c, result_msg (side_result One c)) <$> cards) ∧
    delivered Two (trace r.2) = hand2 :: ((λ c, result_msg (side_result Two c)) <$> cards) ∧
    closed (sock_one r.2) = false ∧ closed (sock_two r.2) = false.
Proof.
  intros Hlen Htx1 Htx2.
  destruct (deal_cards_Ok rng) as (h1 & h2 & Hdeal & _).
  eexists _, _. split; [exact Hdeal|]. intros r.
  assert (Hrun : ∃ st',
    r = (Ok ReturnEnd, st') ∧
    trace st' =
      [ EvRecv One (Ok [0; 0]); EvRecv Two (Ok [0; 0]);
        EvSendall One (Command_value GAMESTART :: h1) (Ok ());
        EvSendall Two (Command_value GAMESTART :: h2) (Ok ());
        EvLog (mkLog DEBUG "Successfully sent cards to both players" []) ]
      ++ rounds_events (seqZ 1 26) cards ∧
    closed (sock_one st') = false ∧ closed (sock_two st') = false).
  { subst r.
    rewrite (handle_game_clients_after_wantgame rng _ _ _ _ _ Hdeal
               (no_false_head _ Htx1) (no_false_head _ Htx2)).
    destruct (rounds_on_play_cards (seqZ 1 26) cards [] [] (tail tx1) (tail tx2)
                [ EvRecv One (Ok [0; 0]); EvRecv Two (Ok [0; 0]);
                  EvSendall One (Command_value GAMESTART :: h1) (Ok ());
                  EvSendall Two (Command_value GAMESTART :: h2) (Ok ());
                  EvLog (mkLog DEBUG "Successfully sent cards to both players" []) ]
                (mkFrame (Some [0; 0]) (Some [0; 0]) None None))
      as (fr' & tx1' & tx2' & Hrounds); [by rewrite Hlen|by apply no_false_tail..|].
    rewrite !app_nil_r in Hrounds.
    unfold mbind, ST_bind. cbn [fst snd]. rewrite Hrounds.
    eexists. by split_and!. }
  destruct Hrun as (st' & -> & Htrace & Hc1 & Hc2). simpl.
  rewrite Htrace, !delivered_app, !delivered_rounds_events by (by rewrite Hlen).
  by split_and!.
Qed.

Lemma full_game_session_witness :
  ∃ hand1 hand2 : bytes,
    deal_cards zero_rng = Ok (hand1, hand2) ∧
    let r := handle_game_clients zero_rng (accepted peer_one [] peer_two []) in
    r.1 = Ok ReturnEnd ∧
    delivered One (trace r.2)
      = hand1 :: ((λ c, result_msg (side_result One c)) <$> zip (seqZ 1 26) (seqZ 27 25 ++ [0])).
Proof.
  destruct (full_game_session zero_rng (zip (seqZ 1 26) (seqZ 27 25 ++ [0])) [] [])
    as (hand1 & hand2 & Hdeal & Hret & _ & Hone & _).
  - reflexivity.
  - apply not_elem_of_nil.
  - apply not_elem_of_nil.
  - exists hand1, hand2. split; [exact Hdeal|]. split; [exact Hret|exact Hone].
Defined.

(** ** The session and two client agents together *)

Lemma side_scores_cancel (c : Z * Z) :
  round_score (Result_value (side_result One c))
  + round_score (Result_value (side_result Two c)) = 0.
Proof.
  unfold side_result, round_results.
  destruct (_ <? _); [done|]. by destruct (_ <? _).
Qed.

Lemma total_scores_cancel (cards : list (Z * Z)) :
  total_score (result_pair One <$> cards) + total_score (result_pair Two <$> cards) = 0.
Proof.
  induction cards as [|c cards IH]; [done|].
  pose proof (side_scores_cancel c) as Hc.
  change (total_score (result_pair One <$> c :: cards))
    with (round_score (Result_value (side_result One c))
          + total_score (result_pair One <$> cards)).
  change (total_score (result_pair Two <$> c :: cards))
    with (round_score (Result_value (side_result Two c))
          + total_score (result_pair Two <$> cards)).
  lia.
Qed.

Lemma concat_result_msgs (s : Side) (cards : list (Z * Z)) :
  concat ((λ c, result_msg (side_result s c)) <$> cards)
  = concat ((λ r, [r.1; r.2]) <$> (result_pair s <$> cards)).
Proof.
  induction cards as [|c cards IH]; [done|].
  rewrite !fmap_cons. cbn [concat]. by rewrite IH.
Qed.

Lemma client_writes_app (t1 t2 : list ClientEvent) :
  client_writes (t1 ++ t2) = client_writes t1 ++ client_writes t2.
Proof. unfold client_writes. apply omap_app. Qed.

Lemma client_writes_rounds_trace (hand : list Z) :
  ∀ results : list (Z * Z), length results = length hand →
    client_writes (rounds_trace hand results) = (λ c, [Command_value PLAYCARD; c]) <$> hand.
Proof.
  induction hand as [|c hand IH]; intros [|r results] Hlen; try done.
  change (rounds_trace (c :: hand) (r :: results))
    with ([CEvWrite [Command_value PLAYCARD; c]; CEvRead 2 (Ok [r.1; r.2])]
          ++ rounds_trace hand results).
  rewrite client_writes_app, IH, fmap_cons by (simpl in Hlen; lia). reflexivity.
Qed.

(** The run of a client on what the session delivered to its side in a game
    in which nothing failed. *)
Lemma client_on_delivered (s : Side) (hand : list Z) (cards : list (Z * Z)) :
  length hand = 26%nat → length cards = 26%nat →
  let r := client (connecting (Ok ())
             (concat ((Command_value GAMESTART :: hand)
                      :: ((λ c, result_msg (side_result s c)) <$> cards)))
             IncompleteReadError) in
  r.1 = Ok 1 ∧
  myscore r.2 = total_score (result_pair s <$> cards) ∧
  RecvData <$> client_writes (ctrace r.2) = RecvData [0; 0] :: plays hand.
Proof.
  intros Hhand Hcards r.
  destruct (client_run_on_game_stream (Command_value GAMESTART) hand
              (result_pair s <$> cards) [] IncompleteReadError Hhand)
    as (Hret & Hscore & Htrace & _); [by rewrite length_fmap|].
  assert (Hr : r = client (connecting (Ok ())
                 (game_stream (Command_value GAMESTART) hand (result_pair s <$> cards) ++ [])
                 IncompleteReadError)).
  { subst r. do 2 f_equal. unfold game_stream.
    rewrite app_nil_r. cbn [concat]. by rewrite concat_result_msgs. }
  rewrite Hr. split_and!; [done..|].
  rewrite Htrace, !client_writes_app, client_writes_rounds_trace
    by (rewrite length_fmap; lia).
  unfold plays. simpl. by rewrite app_nil_r, <- list_fmap_compose.
Qed.

(** X11: A whole game: the session deals two hands, and two client agents play
    them, each fed with exactly the bytes the session delivers to its side
    while the session reads exactly the bytes the agents write.  The session
    returns after round 26 and both agents complete; they end with opposite
    scores. *)
Theorem session_with_two_clients (rng : nat → nat) :
  ∃ hand1 hand2 : list Z,
    deal_cards rng = Ok (Command_value GAMESTART :: hand1, Command_value GAMESTART :: hand2) ∧
    let server := handle_game_clients rng
                    (accepted (RecvData [0; 0] :: plays hand1) []
                              (RecvData [0; 0] :: plays hand2) []) in
    let client1 := client (connecting (Ok ()) (concat (delivered One (trace server.2)))
                             IncompleteReadError) in
    let client2 := client (connecting (Ok ()) (concat (delivered Two (trace server.2)))
                             IncompleteReadError) in
    server.1 = Ok ReturnEnd ∧
    client1.1 = Ok 1 ∧ client2.1 = Ok 1 ∧
    RecvData <$> client_writes (ctrace client1.2) = RecvData [0; 0] :: plays hand1 ∧
    RecvData <$> client_writes (ctrace client2.2) = RecvData [0; 0] :: plays hand2 ∧
    myscore client1.2 + myscore client2.2 = 0.
Proof.
  destruct (deal_cards_Ok rng) as (hand1 & hand2 & Hdeal & Hlen1 & Hlen2).
  exists hand1, hand2. split; [exact Hdeal|]. intros server.
  assert (Hcards : length (zip hand1 hand2) = 26%nat) by (rewrite length_zip; lia).
  assert (Hserver : server.1 = Ok ReturnEnd ∧
    delivered One (trace server.2)
      = (Command_value GAMESTART :: hand1)
        :: ((λ c, result_msg (side_result One c)) <$> zip hand1 hand2) ∧
    delivered Two (trace server.2)
      = (Command_value GAMESTART :: hand2)
        :: ((λ c, result_msg (side_result Two c)) <$> zip hand1 hand2)).
  { subst server.
    rewrite (handle_game_clients_after_wantgame rng _ _ _ _ _ Hdeal) by done.
    destruct (rounds_on_play_cards (seqZ 1 26) (zip hand1 hand2) [] [] [] []
                [ EvRecv One (Ok [0; 0]); EvRecv Two (Ok [0; 0]);
                  EvSendall One (Command_value GAMESTART :: hand1) (Ok ());
                  EvSendall Two (Command_value GAMESTART :: hand2) (Ok ());
                  EvLog (mkLog DEBUG "Successfully sent cards to both players" []) ]
                (mkFrame (Some [0; 0]) (Some [0; 0]) None None))
      as (fr' & tx1' & tx2' & Hrounds); [by rewrite Hcards|apply not_elem_of_nil..|].
    rewrite !app_nil_r, fst_zip, snd_zip in Hrounds by lia.
    unfold mbind, ST_bind. cbn [fst snd tail]. rewrite Hrounds.
    unfold mret, ST_ret. cbn [fst snd trace].
    rewrite !delivered_app, !delivered_rounds_events by (by rewrite Hcards).
    by split_and!. }
  destruct Hserver as (Hret & -> & ->).
  destruct (client_on_delivered One hand1 (zip hand1 hand2) Hlen1 Hcards)
    as (Hret1 & Hscore1 & Hwrites1).
  destruct (client_on_delivered Two hand2 (zip hand1 hand2) Hlen2 Hcards)
    as (Hret2 & Hscore2 & Hwrites2).
  intros client1 client2. subst client1 client2.
  split_and!; [done..|].
  rewrite Hscore1, Hscore2. apply total_scores_cancel.
Qed.

(** ** Failing runs of the client *)

Lemma client_round_trace (card : Z) (st : ClientState) :
  ∃ r, ctrace (client_round card st).2
       = ctrace st ++ [CEvWrite [Command_value PLAYCARD; card]; CEvRead 2 r].
Proof.
  destruct st as [c data e score t].
  unfold client_round, writer_write, reader_readexactly, get_myscore, set_myscore, cemit.
  unfold mbind, ST_bind, mret, ST_ret, lift_res. simpl.
  case_bool_decide as Hlen; simpl.
  - destruct data as [|a [|b data]]; simpl in Hlen; try lia. simpl.
    repeat case_bool_decide; simpl; rewrite <- !app_assoc; by eexists.
  - rewrite <- !app_assoc. by eexists.
Qed.

Lemma client_round_end (card : Z) (st : ClientState) :
  match (client_round card st).1 with
  | Ok _ => at_end (client_round card st).2 = at_end st
  | Raise x => x = at_end st
  end.
Proof.
  destruct st as [c data e score t].
  unfold client_round, writer_write, reader_readexactly, get_myscore, set_myscore, cemit.
  unfold mbind, ST_bind, mret, ST_ret, lift_res. simpl.
  case_bool_decide as Hlen; simpl; [|done].
  destruct data as [|a [|b data]]; simpl in Hlen; try lia. simpl.
  repeat case_bool_decide; simpl; done.
Qed.

Lemma client_rounds_raise (hand : list Z) :
  ∀ (st : ClientState) (x : exn),
    (for_each hand client_round st).1 = Raise x → x = at_end st.
Proof.
  induction hand as [|card hand IH]; intros st x; [done|].
  change (for_each (card :: hand) client_round) with
    (client_round card;; for_each hand client_round).
  unfold mbind, ST_bind. pose proof (client_round_end card st) as Hend.
  destruct (client_round card st) as [[u|x'] st1]; simpl in *.
  - intros Hx. rewrite <- Hend. by apply IH.
  - by intros [= <-].
Qed.

Lemma client_rounds_io (hand : list Z) :
  ∀ st : ClientState,
    Forall (λ e, is_client_io e = true) (ctrace st) →
    Forall (λ e, is_client_io e = true) (ctrace (for_each hand client_round st).2).
Proof.
  induction hand as [|card hand IH]; intros st Hio; [done|].
  change (for_each (card :: hand) client_round) with
    (client_round card;; for_each hand client_round).
  unfold mbind, ST_bind.
  destruct (client_round_trace card st) as [r Htr].
  assert (Hio1 : Forall (λ e, is_client_io e = true) (ctrace (client_round card st).2)).
  { rewrite Htr. apply Forall_app. split; [done|]. by repeat constructor. }
  destruct (client_round card st) as [[u|x] st1]; simpl in *; [by apply IH|done].
Qed.

(** The body of the client either runs to its end, having logged the outcome
    and closed the writer last, or raises with only connecting, writes and
    reads done. *)
Lemma client_body_outcome (c : res unit) (data : bytes) (e : exn) :
  let r := client_body (connecting c data e) in
  (∃ t outcome, r.1 = Ok 1 ∧ Forall (λ e, is_client_io e = true) t ∧
     ctrace r.2 = t ++ [CEvLog (mkLog DEBUG "Game complete, I %s" [ArgStr outcome]); CEvClose]) ∨
  (∃ x, r.1 = Raise x ∧ (c = Raise x ∨ x = e) ∧
     Forall (λ e, is_client_io e = true) (ctrace r.2)).
Proof.
  intros r. assert (Hr : r = client_body (connecting c data e)) by done. clearbody r.
  unfold client_body, connecting in Hr.
  unfold mbind at 1 in Hr. unfold ST_bind at 1 in Hr. unfold open_connection at 1 in Hr.
  unfold cemit in Hr. cbn [connect_result incoming at_end myscore ctrace fst snd app] in Hr.
  destruct c as [[]|x].
  2:{ subst r. right. exists x. split_and!; [done|by left|by repeat constructor]. }
  unfold mbind at 1 in Hr. unfold ST_bind at 1 in Hr. unfold writer_write at 1 in Hr.
  unfold cemit in Hr. cbn [connect_result incoming at_end myscore ctrace fst snd app] in Hr.
  unfold mbind at 1 in Hr. unfold ST_bind at 1 in Hr.
  destruct (decide (27 ≤ length data)%nat) as [Hlong|Hshort].
  - rewrite reader_readexactly_enough in Hr by done.
    unfold mbind at 1 in Hr. unfold ST_bind at 1 in Hr. unfold set_myscore at 1 in Hr.
    cbn [connect_result incoming at_end myscore ctrace fst snd] in Hr.
    unfold mbind at 1 in Hr. unfold ST_bind at 1 in Hr.
    match type of Hr with
    | context [for_each ?h client_round ?st] =>
        pose proof (client_rounds_io h st) as Hio;
        pose proof (client_rounds_raise h st) as Hend;
        destruct (for_each h client_round st) as [[u|x'] st1] eqn:Hloop
    end; cbn [fst snd ctrace at_end] in *.
    + left.
      unfold mbind, ST_bind, get_myscore, clogging, writer_close, cemit, mret, ST_ret in Hr.
      simpl in Hr. subst r. simpl.
      eexists (ctrace st1), _. split_and!; [done| |by rewrite <- app_assoc].
      apply Hio. by repeat constructor.
    + right. subst r. exists x'. split_and!; [done| |apply Hio; by repeat constructor].
      right. by apply Hend.
  - right. exists e. unfold reader_readexactly in Hr. cbn [incoming] in Hr.
    rewrite bool_decide_eq_false_2 in Hr by lia. subst r.
    split_and!; [done|by right|]. unfold cemit. simpl. by repeat constructor.
Qed.

(** What the [except] clauses of [client] make of the outcome of its body. *)
Lemma client_from_body (st : ClientState) :
  match client_body st with
  | (Ok a, st') => client st = (Ok a, st')
  | (Raise x, st') =>
      if is_network_error x
      then ∃ m, client st = (Ok 0, cemit (CEvLog (mkLog ERROR m [])) st')
      else client st = (Raise x, st')
  end.
Proof.
  unfold client, try_excepts. destruct (client_body st) as [[a|x] st']; [done|].
  destruct x; simpl; try done; by eexists.
Qed.



Lemma io_events_have_no_close (t : list ClientEvent) :
  Forall (λ e, is_client_io e = true) t → CEvClose ∉ t.
Proof.
  intros Hio Hin. rewrite Forall_forall in Hio. by specialize (Hio _ Hin).
Qed.

(** X15: [client] closes its writer only at the end of a completed game, as the
    last thing it does.  On every other path, which returns 0 after logging
    an error or lets an exception through, the writer is never closed. *)
Theorem client_closes_writer_only_on_success (c : res unit) (data : bytes) (e : exn) :
  let r := client (connecting c data e) in
  (r.1 = Ok 1 → ∃ t, ctrace r.2 = t ++ [CEvClose] ∧ CEvClose ∉ t) ∧
  (r.1 ≠ Ok 1 → CEvClose ∉ ctrace r.2) ∧
  (r.1 = Ok 0 → ∃ t m, ctrace r.2 = t ++ [CEvLog (mkLog ERROR m [])]).
Proof.
  intros r. subst r.
  pose proof (client_from_body (connecting c data e)) as Hclient.
  destruct (client_body_outcome c data e) as [(t & o & Hret & Hio & Htr)|(x & Hret & Hx & Hio)];
    destruct (client_body (connecting c data e)) as [[a|x'] st']; simpl in *; simplify_eq.
  - rewrite Hclient. simpl. split_and!; [|done|done].
    intros _. exists (t ++ [CEvLog (mkLog DEBUG "Game complete, I %s" [ArgStr o])]).
    split; [by rewrite Htr, <- app_assoc|].
    intros [Hin|Hin]%elem_of_app; [by apply (io_events_have_no_close t)|].
    by apply list_elem_of_singleton in Hin.
  - destruct (is_network_error x).
    + destruct Hclient as [m ->]. unfold cemit. simpl. split_and!; [done| |by eexists _, _].
      intros _ [Hin|Hin]%elem_of_app; [by apply (io_events_have_no_close _ Hio)|].
      by apply list_elem_of_singleton in Hin.
    + rewrite Hclient. simpl. split_and!; [done| |done].
      intros _. by apply io_events_have_no_close.
Qed.

Lemma total_score_bounds (results : list (Z * Z)) :
  - Z.of_nat (length results) ≤ total_score results ≤ Z.of_nat (length results).
Proof.
  induction results as [|r results IH]; [done|].
  change (total_score (r :: results)) with (round_score r.2 + total_score results).
  assert (-1 ≤ round_score r.2 ≤ 1) by (unfold round_score; repeat case_bool_decide; lia).
  simpl length. lia.
Qed.

(** X16: A client that completes its game ends with a score between [-26] and
    [26]. *)
Theorem client_score_bounds (c : res unit) (data : bytes) (e : exn) :
  (client (connecting c data e)).1 = Ok 1 →
  -26 ≤ myscore (client (connecting c data e)).2 ≤ 26.
Proof.
  intros Hrun.
  destruct (client_completes_only_on_whole_game c data e Hrun) as [-> Hlen].
  destruct data as [|tag data]; [simpl in Hlen; lia|]. simpl in Hlen.
  destruct (pairs_concat 26 (take 52 (drop 26 data))) as [Hconcat Hpairs].
  { rewrite length_take, length_drop. lia. }
  assert (Hdata : tag :: data
    = game_stream tag (take 26 data) (pairs (take 52 (drop 26 data))) ++ drop 78 data).
  { unfold game_stream. rewrite Hconcat. simpl. f_equal.
    rewrite <- app_assoc.
    replace (drop 78 data) with (drop 52 (drop 26 data)) by (by rewrite drop_drop).
    by rewrite !take_drop. }
  rewrite Hdata.
  destruct (client_run_on_game_stream tag (take 26 data) (pairs (take 52 (drop 26 data)))
              (drop 78 data) e) as (_ & -> & _); [rewrite length_take; lia|done|].
  pose proof (total_score_bounds (pairs (take 52 (drop 26 data)))) as Hb.
  rewrite Hpairs in Hb. lia.
Qed.

Lemma client_score_bounds_witness :
  (client (connecting (Ok ()) (game_stream 1 (seqZ 1 26) some_results)
             IncompleteReadError)).1 = Ok 1 ∧
  -26 ≤ myscore (client (connecting (Ok ()) (game_stream 1 (seqZ 1 26) some_results)
                           IncompleteReadError)).2 ≤ 26.
Proof.
  split; [reflexivity|].
  apply (client_score_bounds (Ok ()) (game_stream 1 (seqZ 1 26) some_results)
           IncompleteReadError).
  reflexivity.
Defined.

(** ** serve_game *)

Lemma serve_loop_pairs (n : nat) :
  ∀ conns : list nat, (length conns ≤ n)%nat →
    (serve_loop (Accepted <$> conns)).2 = KeyboardInterrupt ∧
    served_connections (serve_loop (Accepted <$> conns)).1
      = take (2 * (length conns `div` 2)) conns ∧
    sessions_started (serve_loop (Accepted <$> conns)).1 = (length conns `div` 2)%nat.
Proof.
  induction n as [|n IH]; intros conns Hlen.
  - destruct conns as [|c conns]; [by vm_compute|simpl in Hlen; lia].
  - destruct conns as [|c1 [|c2 conns]]; [by vm_compute..|].
    destruct (IH conns) as (Hend & Hserved & Hcount); [simpl in Hlen; lia|].
    assert (Hdiv : (length (c1 :: c2 :: conns) `div` 2 = S (length conns `div` 2))%nat).
    { simpl length. change (S (S (length conns))) with (1 * 2 + length conns)%nat.
      rewrite Nat.add_comm, Nat.div_add by lia. lia. }
    rewrite Hdiv.
    change (serve_loop (Accepted <$> c1 :: c2 :: conns)) with
      (SLog (mkLog DEBUG "Player 1 connected." [])
       :: SLog (mkLog DEBUG "Player 2 connected." [])
       :: SLog (mkLog DEBUG "handle_game_clients function was called in a new thread." [])
       :: SThreadStart c1 c2
       :: (serve_loop (Accepted <$> conns)).1, (serve_loop (Accepted <$> conns)).2).
    split_and!; [done| |].
    + change (served_connections _) with
        (c1 :: c2 :: served_connections (serve_loop (Accepted <$> conns)).1).
      rewrite Hserved.
      replace (2 * S (length conns `div` 2))%nat with (S (S (2 * (length conns `div` 2))))
        by lia.
      done.
    + change (sessions_started _) with
        (S (sessions_started (serve_loop (Accepted <$> conns)).1)).
      by rewrite Hcount.
Qed.

(** X18: When the listening socket is set up and [accept] hands over the
    connections [conns] before the interrupt, [serve_game] starts one session
    for every two connections, in the order they came: each connection is
    given to exactly one session, except the last one when their number is
    odd, which is accepted and given to none. *)
Theorem serve_game_pairs_connections (conns : list nat) :
  let r := serve_game (mkListening (Ok ()) (Ok ()) (Ok ()) (Accepted <$> conns)) in
  r.2 = KeyboardInterrupt ∧
  served_connections r.1 = take (2 * (length conns `div` 2)) conns ∧
  sessions_started r.1 = (length conns `div` 2)%nat.
Proof.
  intros r. subst r. unfold serve_game. simpl.
  destruct (serve_loop_pairs (length conns) conns) as (Hend & Hserved & Hcount); [done|].
  split_and!; [done| |done].
  exact Hserved.
Qed.

Example serve_game_three_connections :
  serve_game (mkListening (Ok ()) (Ok ()) (Ok ()) [Accepted 7; Accepted 8; Accepted 9])
  = ([ SLog (mkLog DEBUG "Game Server initializing" []);
       SLog (mkLog DEBUG "Successfully binded socket" []);
       SLog (mkLog DEBUG "Listening to socket for connections..." []);
       SLog (mkLog DEBUG "Player 1 connected." []);
       SLog (mkLog DEBUG "Player 2 connected." []);
       SLog (mkLog DEBUG "handle_game_clients function was called in a new thread." []);
       SThreadStart 7 8;
       SLog (mkLog DEBUG "Player 1 connected." []) ], KeyboardInterrupt).
Proof. reflexivity. Qed.

Example serve_game_no_socket :
  serve_game (mkListening (Raise OSError) (Ok ()) (Ok ()) [Accepted 7; Accepted 8])
  = ([SLog (mkLog ERROR "Socket creation failed." [])], SystemExit).
Proof. reflexivity. Qed.

(** ** A round with a wrong tag *)

(** X12: In a round whose two messages arrive with two bytes each, both are read
    before either tag is looked at; if player one's tag is not [PLAYCARD], or
    else player two's is not, the round sends no result, closes both
    connections once and returns from the session. *)
Theorem round_with_wrong_tag_kills (i : Z) (st : State) (tag1 c1 tag2 c2 : Z)
    (rest1 rest2 : list RecvOutcome) :
  closed (sock_one st) = false → rx (sock_one st) = RecvData [tag1; c1] :: rest1 →
  closed (sock_two st) = false → rx (sock_two st) = RecvData [tag2; c2] :: rest2 →
  tag1 ≠ Command_value PLAYCARD ∨ tag2 ≠ Command_value PLAYCARD →
  (round i st).1
    = Ok (Return (if bool_decide (tag1 ≠ Command_value PLAYCARD)
                  then ReturnTagOne else ReturnTagTwo)) ∧
  trace (round i st).2
    = trace st ++ [ EvRecv One (Ok [tag1; c1]); EvRecv Two (Ok [tag2; c2]);
                    EvClose One; EvClose Two ] ∧
  closed (sock_one (round i st).2) = true ∧ closed (sock_two (round i st).2) = true.
Proof.
  destruct st as [[rx1 tx1 cl1] [rx2 tx2 cl2] tr fr].
  cbn [sock_one sock_two closed rx tx trace].
  intros -> -> -> -> Htag.
  assert (Hround :
    round i (mkState (mkSock (RecvData [tag1; c1] :: rest1) tx1 false)
                     (mkSock (RecvData [tag2; c2] :: rest2) tx2 false) tr fr)
    = (Ok (Return (if bool_decide (tag1 ≠ Command_value PLAYCARD)
                   then ReturnTagOne else ReturnTagTwo)),
       mkState (mkSock rest1 tx1 true) (mkSock rest2 tx2 true)
         (tr ++ [ EvRecv One (Ok [tag1; c1]); EvRecv Two (Ok [tag2; c2]);
                  EvClose One; EvClose Two ])
         (set_player_two_data [tag2; c2]
            (set_player_one_data [tag1; c1]
               (set_player_two_play_card [tag2; c2]
                  (set_player_one_play_card [tag1; c1] fr)))))).
  { unfold round. lazy -[compare_cards pack_results app Z.eq_dec].
    destruct (Z.eq_dec tag1 2) as [->|Hne1].
    - destruct (Z.eq_dec tag2 2) as [->|Hne2]; [by destruct Htag|].
      lazy -[app]. by rewrite <- !app_assoc.
    - lazy -[app]. by rewrite <- !app_assoc. }
  rewrite Hround. by split_and!.
Qed.

Lemma round_with_wrong_tag_kills_witness :
  let st := mkState (mkSock [RecvData [3; 0]] [] false) (mkSock [RecvData [2; 9]] [] false)
              [] (mkFrame (Some [0; 0]) (Some [0; 0]) None None) in
  (round 1 st).1 = Ok (Return ReturnTagOne) ∧
  trace (round 1 st).2
    = [EvRecv One (Ok [3; 0]); EvRecv Two (Ok [2; 9]); EvClose One; EvClose Two].
Proof.
  intros st.
  destruct (round_with_wrong_tag_kills 1 st 3 0 2 9 [] []) as (Hret & Htrace & _).
  - reflexivity.
  - reflexivity.
  - reflexivity.
  - reflexivity.
  - left. discriminate.
  - split; [exact Hret|exact Htrace].
Defined.

(** ** The semaphore of the limiter *)

(** X17: In every state the event loop reaches, the units the semaphore still
    holds and the agents inside add up to [L]: no unit is lost or made, and
    once all [n] agents have finished the semaphore holds [L] again. *)
Theorem limiter_conserves_semaphore (L n k : nat) (s : Limiter) :
  runs L n k s →
  (sem_value s + in_flight s = L)%nat ∧
  (sem_value s ≤ L)%nat ∧
  (k = (2 * n)%nat → sem_value s = L).
Proof.
  intros Hruns. destruct (runs_invariant L n k s Hruns) as (Hlen & Hsem & Hk).
  pose proof (count_partition (agents s)) as Hpart.
  unfold in_flight, count in *. split_and!; [done|lia|]. intros ->. lia.
Qed.

Lemma limiter_conserves_semaphore_witness :
  let s := mkLimiter 1000 [Finished 1] in
  (sem_value s + in_flight s = 1000)%nat ∧ sem_value s = 1000%nat.
Proof.
  intros s.
  destruct (limiter_conserves_semaphore 1000 1 2 s) as (Hsum & _ & Hfull).
  - apply (runs_resume 1000 1 1 (mkLimiter 999 [InFlight]) 0 1 s); [|reflexivity].
    apply (runs_resume 1000 1 0 (start_clients 1000 1) 0 1 (mkLimiter 999 [InFlight]));
      [apply runs_start|reflexivity].
  - split; [exact Hsum|]. by apply Hfull.
Defined.

(** ** A peer that leaves after the deal *)

Ltac round_one_finish :=
  eexists _, _; split; [reflexivity|]; split; [simpl; reflexivity|];
  vm_compute; repeat split; solve [done|lia].

(** Round 1 when player one's stream has ended: its [recv] returns the empty
    [bytes], which do not unpack, and the tag check then reads the [WANTGAME]
    bytes that [player_one_data] still holds. *)
Lemma round_one_after_end_of_stream (i : Z) (rx2 : list RecvOutcome) (tx1 tx2 : list bool)
    (tr : list Event) :
  ∃ st' t,
    round i (mkState (mkSock [] tx1 false) (mkSock rx2 tx2 false) tr
                     (mkFrame (Some [0; 0]) (Some [0; 0]) None None))
    = (Ok (Return ReturnTagOne), st') ∧
    trace st' = tr ++ EvRecv One (Ok []) :: t ∧
    sendall_calls One t = [] ∧ sendall_calls Two t = [] ∧
    (2 ≤ close_calls One t ≤ 3)%nat ∧ close_calls Two t = close_calls One t ∧
    closed (sock_one st') = true ∧ closed (sock_two st') = true.
Proof.
  destruct (round i _) as [r st'] eqn:Hround. unfold round in Hround.
  destruct rx2 as [|[d2|] rx2].
  - lazy -[app] in Hround. rewrite <- !app_assoc in Hround. simplify_eq.
    round_one_finish.
  - destruct (decide (length d2 ≤ byte_buffer)%nat) as [Hlen|Hlen].
    + lazy -[app bool_decide take drop length byte_buffer] in Hround.
      rewrite bool_decide_eq_true_2 in Hround by done.
      lazy -[app] in Hround. rewrite <- !app_assoc in Hround. simplify_eq.
      round_one_finish.
    + lazy -[app bool_decide take drop length byte_buffer] in Hround.
      rewrite bool_decide_eq_false_2 in Hround by done.
      lazy -[app take drop] in Hround. rewrite <- !app_assoc in Hround. simplify_eq.
      round_one_finish.
  - lazy -[app] in Hround. rewrite <- !app_assoc in Hround. simplify_eq.
    round_one_finish.
Qed.

Lemma sendall_calls_app (s : Side) (t1 t2 : list Event) :
  sendall_calls s (t1 ++ t2) = sendall_calls s t1 ++ sendall_calls s t2.
Proof. unfold sendall_calls. apply omap_app. Qed.

(** X13: If player one's stream ends right after its [WANTGAME] message and
    both hands are delivered, then, whenever player two's [recv] of round 1
    returns (a message, or the empty [bytes] of a stream that has ended) or
    fails, the session ends in round 1: the hands are all it ever sends, no
    round is completed, and it returns with both connections closed, [close]
    having been called on each two or three times.  The scripts [rx2] are
    these cases; a player two that stays connected and silent keeps the
    session waiting in that [recv] and is not among them. *)
Theorem peer_leaving_after_the_deal_ends_session (rng : nat → nat)
    (rx2 : list RecvOutcome) (tx1 tx2 : list bool) :
  head tx1 ≠ Some false → head tx2 ≠ Some false →
  ∃ hand1 hand2 : bytes,
    deal_cards rng = Ok (hand1, hand2) ∧
    let r := handle_game_clients rng
               (accepted [RecvData [0; 0]] tx1 (RecvData [0; 0] :: rx2) tx2) in
    r.1 = Ok ReturnTagOne ∧
    sendall_calls One (trace r.2) = [hand1] ∧
    sendall_calls Two (trace r.2) = [hand2] ∧
    (2 ≤ close_calls One (trace r.2) ≤ 3)%nat ∧
    close_calls Two (trace r.2) = close_calls One (trace r.2) ∧
    closed (sock_one r.2) = true ∧ closed (sock_two r.2) = true.
Proof.
  intros Htx1 Htx2.
  destruct (deal_cards_Ok rng) as (h1 & h2 & Hdeal & _).
  eexists _, _. split; [exact Hdeal|]. intros r. subst r.
  rewrite (handle_game_clients_after_wantgame rng _ _ _ _ _ Hdeal Htx1 Htx2).
  cbn [fst snd].
  destruct (round_one_after_end_of_stream 1 rx2 (tail tx1) (tail tx2)
              [ EvRecv One (Ok [0; 0]); EvRecv Two (Ok [0; 0]);
                EvSendall One (Command_value GAMESTART :: h1) (Ok ());
                EvSendall Two (Command_value GAMESTART :: h2) (Ok ());
                EvLog (mkLog DEBUG "Successfully sent cards to both players" []) ])
    as (st' & t & Hround & Htrace & Hs1 & Hs2 & Hc1 & Hc2 & Hcl1 & Hcl2).
  rewrite (seqZ_cons 1 26) by lia.
  change (for_range (1 :: seqZ (Z.succ 1) (Z.pred 26)) round) with
    (c ← round 1;
     match c with
     | Next => for_range (seqZ (Z.succ 1) (Z.pred 26)) round
     | Return e => mret (Return e)
     end).
  unfold mbind, ST_bind. rewrite Hround. unfold mret, ST_ret. cbn [fst snd].
  rewrite Htrace.
  change (EvRecv One (Ok []) :: t) with ([EvRecv One (Ok [])] ++ t).
  rewrite !sendall_calls_app, !close_calls_app, Hs1, Hs2, Hc2.
  split_and!; try done; simpl; lia.
Qed.

Lemma peer_leaving_after_the_deal_ends_session_witness :
  ∃ hand1 hand2 : bytes,
    deal_cards zero_rng = Ok (hand1, hand2) ∧
    let r := handle_game_clients zero_rng (accepted [RecvData [0; 0]] [] peer_two []) in
    r.1 = Ok ReturnTagOne ∧
    sendall_calls One (trace r.2) = [hand1] ∧
    closed (sock_one r.2) = true ∧ closed (sock_two r.2) = true.
Proof.
  destruct (peer_leaving_after_the_deal_ends_session zero_rng
              (plays (seqZ 27 25 ++ [0])) [] [])
    as (hand1 & hand2 & Hdeal & Hret & Hs1 & _ & _ & _ & Hc1 & Hc2).
  - discriminate.
  - discriminate.
  - exists hand1, hand2. split; [exact Hdeal|]. split; [exact Hret|].
    split; [exact Hs1|]. split; [exact Hc1|exact Hc2].
Defined.
